(** * Mortgage calculator: amortization arithmetic of [MortgageCalculator.ts]

    A shallow embedding of the class [MortgageCalculator]
    (src/models/MortgageCalculator.ts) and the properties of its
    computations: the closed-form monthly payment, the amortization schedule,
    and the extra-payment simulation.

    Number model.  A TypeScript [number] is modelled as an exact rational
    ([Q]): [+], [-], [*], [/] are the rational operations, comparisons are the
    rational order, and [===] on numbers is equality of value ([Qeq_bool]).
    Rounding of IEEE doubles, infinities and NaN are not part of this model;
    [x / 0] is [0] in [Q], so every theorem that depends on the value of a
    quotient carries hypotheses under which the divisor is not zero.  Loop
    counters that only take whole values ([paymentNumber], [month]) are
    integers ([Z]).

    What rounding decides is not stated over the rationals.  The module
    [Binary64] holds the same code over binary64 floating-point numbers, the
    numbers the program runs on, and is evaluated at concrete inputs; the
    values handed to the validators of the prompts are numbers that may also
    be infinite or NaN ([JsNumber]).

    [Math.pow] is a library function of the host language, not code of this
    repository: it is a parameter [Math_pow] of the model, and the theorems
    that need its value assume only how it behaves at a whole exponent. *)

From Stdlib Require Import QArith Qround Qminmax Qpower Qfield.
From Stdlib Require Import ZArith String List Bool Lia Lqa.
From Stdlib Require Import PrimFloat SpecFloat FloatOps.
Import ListNotations.

Open Scope Q_scope.

(** ** Loops

    A [while] or [for] loop over a state is run with a fuel bound; [while_run]
    is the loop's big-step semantics (finite runs only), against which the
    fuel chosen by each caller is justified. *)

Section While.
Context {State : Type}.
Variable cond : State -> bool.
Variable body : State -> State.

Fixpoint while_fuel (fuel : nat) (s : State) : State :=
  match fuel with
  | O => s
  | S fuel' => if cond s then while_fuel fuel' (body s) else s
  end.

Inductive while_run : State -> State -> Prop :=
| while_exit : forall s, cond s = false -> while_run s s
| while_iter : forall s s', cond s = true -> while_run (body s) s' ->
                            while_run s s'.
End While.

(** ** Numbers *)

(** [x < y] on numbers, as a boolean test. *)
Definition Qltb (x y : Q) : bool := negb (Qle_bool y x).

(** [Math.max(x, y)]. *)
Definition Math_max (x y : Q) : Q := Qmax x y.

(** Outcome of a call that may [throw new Error(message)]. *)
Inductive completion (A : Type) : Type :=
| Returned (value : A)
| Thrown (message : string).
Arguments Returned {A} value.
Arguments Thrown {A} message.

(** ** Records *)

(** One element of the array returned by [generateAmortizationSchedule]. *)
Record PaymentScheduleEntry : Type := mkEntry {
  paymentNumber : Z;
  payment : Q;
  principal : Q;
  interest : Q;
  remainingBalance : Q
}.

(** The object returned by [calculateExtraPaymentImpact]. *)
Record ExtraPaymentImpact : Type := mkImpact {
  newLoanTermMonths : Q;
  monthsSaved : Q;
  interestSaved : Q;
  totalInterestStandard : Q;
  totalInterestWithExtra : Q
}.

(** Local variables of the [for] loop of [generateAmortizationSchedule]. *)
Record ScheduleState : Type := mkScheduleState {
  st_paymentNumber : Z;
  st_remainingBalance : Q;
  st_schedule : list PaymentScheduleEntry
}.

(** Local variables of the [while] loop of [calculateExtraPaymentImpact]. *)
Record SimState : Type := mkSimState {
  sim_balance : Q;
  sim_month : Z;
  sim_totalInterestWithExtra : Q
}.

(** ** The class [MortgageCalculator] *)

Section MortgageCalculator.
Variable Math_pow : Q -> Q -> Q.

Definition calculateMonthlyPayment (loanAmount interestRate loanTerm : Q) : Q :=
  let monthlyRate := interestRate / 100 / 12 in
  let numberOfPayments := loanTerm * 12 in
  if Qeq_bool monthlyRate 0 then
    loanAmount / numberOfPayments
  else
    let monthlyPayment :=
      loanAmount *
      (monthlyRate * Math_pow (1 + monthlyRate) numberOfPayments) /
      (Math_pow (1 + monthlyRate) numberOfPayments - 1) in
    monthlyPayment.

Definition calculateTotalPayment (monthlyPayment loanTerm : Q) : Q :=
  monthlyPayment * loanTerm * 12.

Definition calculateTotalInterest (totalPayment loanAmount : Q) : Q :=
  totalPayment - loanAmount.

(** [paymentNumber <= totalPayments] *)
Definition schedule_cond (totalPayments : Q) (s : ScheduleState) : bool :=
  Qle_bool (inject_Z (st_paymentNumber s)) totalPayments.

(** The body of the [for] loop, followed by [paymentNumber++]. *)
Definition schedule_body (monthlyPayment monthlyRate : Q)
           (s : ScheduleState) : ScheduleState :=
  let interestPayment := st_remainingBalance s * monthlyRate in
  let principalPayment := monthlyPayment - interestPayment in
  let remainingBalance' := st_remainingBalance s - principalPayment in
  {| st_paymentNumber := st_paymentNumber s + 1;
     st_remainingBalance := remainingBalance';
     st_schedule :=
       st_schedule s ++
       [ {| paymentNumber := st_paymentNumber s;
            payment := monthlyPayment;
            principal := principalPayment;
            interest := interestPayment;
            remainingBalance := Math_max 0 remainingBalance' |} ] |}.

Definition schedule_init (loanAmount : Q) : ScheduleState :=
  {| st_paymentNumber := 1;
     st_remainingBalance := loanAmount;
     st_schedule := [] |}.

(** Iterations granted to the [for] loop: the counter runs over the whole
    numbers from 1 up to [totalPayments]. *)
Definition schedule_fuel (totalPayments : Q) : nat :=
  Z.to_nat (Qfloor totalPayments).

Definition generateAmortizationSchedule
           (loanAmount monthlyPayment interestRate loanTerm : Q)
  : list PaymentScheduleEntry :=
  let monthlyRate := interestRate / 100 / 12 in
  let totalPayments := loanTerm * 12 in
  st_schedule
    (while_fuel (schedule_cond totalPayments)
                (schedule_body monthlyPayment monthlyRate)
                (schedule_fuel totalPayments)
                (schedule_init loanAmount)).

(** [balance > 0 && month < loanTermMonths * 2] *)
Definition sim_cond (loanTermMonths : Q) (s : SimState) : bool :=
  Qltb 0 (sim_balance s) &&
  Qltb (inject_Z (sim_month s)) (loanTermMonths * 2).

(** The body of the [while] loop. *)
Definition sim_body (monthlyRate standardMonthlyPayment extraMonthlyPayment : Q)
           (s : SimState) : SimState :=
  let month := (sim_month s + 1)%Z in
  let interestThisMonth := sim_balance s * monthlyRate in
  let totalInterestWithExtra := sim_totalInterestWithExtra s + interestThisMonth in
  let totalPayment := standardMonthlyPayment + extraMonthlyPayment in
  let balance := sim_balance s - (totalPayment - interestThisMonth) in
  if Qltb balance 0 then
    {| sim_balance := 0;
       sim_month := month;
       sim_totalInterestWithExtra := totalInterestWithExtra + balance * monthlyRate |}
  else
    {| sim_balance := balance;
       sim_month := month;
       sim_totalInterestWithExtra := totalInterestWithExtra |}.

Definition sim_init (loanAmount : Q) : SimState :=
  {| sim_balance := loanAmount;
     sim_month := 0;
     sim_totalInterestWithExtra := 0 |}.

(** Iterations granted to the [while] loop: [month] starts at 0 and the
    loop condition requires [month < loanTermMonths * 2]. *)
Definition sim_fuel (loanTermMonths : Q) : nat :=
  Z.to_nat (Qceiling (loanTermMonths * 2)).

Definition calculateExtraPaymentImpact
           (loanAmount interestRate loanTermYears extraMonthlyPayment : Q)
  : completion ExtraPaymentImpact :=
  if Qle_bool loanAmount 0 then
    Thrown "Loan amount must be positive"
  else if Qltb interestRate 0 then
    Thrown "Interest rate cannot be negative"
  else if Qle_bool loanTermYears 0 then
    Thrown "Loan term must be positive"
  else if Qltb extraMonthlyPayment 0 then
    Thrown "Extra payment cannot be negative"
  else
    let loanTermMonths := loanTermYears * 12 in
    let standardMonthlyPayment :=
      calculateMonthlyPayment loanAmount interestRate loanTermYears in
    let totalStandardPayment := standardMonthlyPayment * loanTermMonths in
    let totalStandardInterest := totalStandardPayment - loanAmount in
    if Qeq_bool extraMonthlyPayment 0 then
      Returned {| newLoanTermMonths := loanTermMonths;
                  monthsSaved := 0;
                  interestSaved := 0;
                  totalInterestStandard := totalStandardInterest;
                  totalInterestWithExtra := totalStandardInterest |}
    else
      let monthlyRate := interestRate / 100 / 12 in
      let final :=
        while_fuel (sim_cond loanTermMonths)
                   (sim_body monthlyRate standardMonthlyPayment extraMonthlyPayment)
                   (sim_fuel loanTermMonths)
                   (sim_init loanAmount) in
      let newLoanTermMonths := inject_Z (sim_month final) in
      let monthsSaved := loanTermMonths - newLoanTermMonths in
      let interestSaved := totalStandardInterest - sim_totalInterestWithExtra final in
      Returned {| newLoanTermMonths := newLoanTermMonths;
                  monthsSaved := monthsSaved;
                  interestSaved := interestSaved;
                  totalInterestStandard := totalStandardInterest;
                  totalInterestWithExtra := sim_totalInterestWithExtra final |}.
End MortgageCalculator.

(** [Math.pow] restricted to whole exponents: an instance of the parameter
    [Math_pow] on which the model can be evaluated. *)
Definition pow_whole (x y : Q) : Q := x ^ Qfloor y.

(** ** The class on binary64 numbers

    The same methods, statement by statement, over the floating-point
    numbers of the host language: every operation rounds as IEEE 754
    prescribes, and a comparison with NaN is false.  The loop counters are
    numbers too.  [Math.max] returns NaN when an argument is NaN and takes
    [+0] to be larger than [-0]. *)

Module Binary64.
Local Open Scope float_scope.

(** The whole part of a number that is 0 or more (0 for any other): the
    count of whole numbers from 1 up to it. *)
Definition whole_part (x : float) : nat :=
  match Prim2SF x with
  | S754_finite false m e =>
      Z.to_nat (if (0 <=? e)%Z then Z.pos m * 2 ^ e else Z.pos m / 2 ^ (- e))
  | _ => O
  end.

Definition Math_max (x y : float) : float :=
  if is_nan x then nan
  else if is_nan y then nan
  else if x <? y then y
  else if y <? x then x
  else if (x =? 0) && (1 / x <? 0) then y
  else x.

Record PaymentScheduleEntry : Type := mkEntry {
  paymentNumber : float;
  payment : float;
  principal : float;
  interest : float;
  remainingBalance : float
}.

Record ExtraPaymentImpact : Type := mkImpact {
  newLoanTermMonths : float;
  monthsSaved : float;
  interestSaved : float;
  totalInterestStandard : float;
  totalInterestWithExtra : float
}.

Record ScheduleState : Type := mkScheduleState {
  st_paymentNumber : float;
  st_remainingBalance : float;
  st_schedule : list PaymentScheduleEntry
}.

Record SimState : Type := mkSimState {
  sim_balance : float;
  sim_month : float;
  sim_totalInterestWithExtra : float
}.

Section MortgageCalculator.
Variable Math_pow : float -> float -> float.

Definition calculateMonthlyPayment (loanAmount interestRate loanTerm : float) : float :=
  let monthlyRate := interestRate / 100 / 12 in
  let numberOfPayments := loanTerm * 12 in
  if monthlyRate =? 0 then
    loanAmount / numberOfPayments
  else
    let monthlyPayment :=
      loanAmount *
      (monthlyRate * Math_pow (1 + monthlyRate) numberOfPayments) /
      (Math_pow (1 + monthlyRate) numberOfPayments - 1) in
    monthlyPayment.

(** [paymentNumber <= totalPayments] *)
Definition schedule_cond (totalPayments : float) (s : ScheduleState) : bool :=
  st_paymentNumber s <=? totalPayments.

Definition schedule_body (monthlyPayment monthlyRate : float)
           (s : ScheduleState) : ScheduleState :=
  let interestPayment := st_remainingBalance s * monthlyRate in
  let principalPayment := monthlyPayment - interestPayment in
  let remainingBalance' := st_remainingBalance s - principalPayment in
  {| st_paymentNumber := st_paymentNumber s + 1;
     st_remainingBalance := remainingBalance';
     st_schedule :=
       st_schedule s ++
       [ {| paymentNumber := st_paymentNumber s;
            payment := monthlyPayment;
            principal := principalPayment;
            interest := interestPayment;
            remainingBalance := Math_max 0 remainingBalance' |} ] |}.

(** The state in which the [for] loop of [generateAmortizationSchedule] is
    left, when it is granted one iteration for each whole number from 1 up
    to [totalPayments]. *)
Definition schedule_run (loanAmount monthlyPayment interestRate loanTerm : float)
  : ScheduleState :=
  let monthlyRate := interestRate / 100 / 12 in
  let totalPayments := loanTerm * 12 in
  while_fuel (schedule_cond totalPayments)
             (schedule_body monthlyPayment monthlyRate)
             (whole_part totalPayments)
             {| st_paymentNumber := 1;
                st_remainingBalance := loanAmount;
                st_schedule := [] |}.

Definition generateAmortizationSchedule
           (loanAmount monthlyPayment interestRate loanTerm : float)
  : list PaymentScheduleEntry :=
  st_schedule (schedule_run loanAmount monthlyPayment interestRate loanTerm).

(** [balance > 0 && month < loanTermMonths * 2] *)
Definition sim_cond (loanTermMonths : float) (s : SimState) : bool :=
  (0 <? sim_balance s) && (sim_month s <? loanTermMonths * 2).

Definition sim_body (monthlyRate standardMonthlyPayment extraMonthlyPayment : float)
           (s : SimState) : SimState :=
  let month := sim_month s + 1 in
  let interestThisMonth := sim_balance s * monthlyRate in
  let totalInterestWithExtra := sim_totalInterestWithExtra s + interestThisMonth in
  let totalPayment := standardMonthlyPayment + extraMonthlyPayment in
  let balance := sim_balance s - (totalPayment - interestThisMonth) in
  if balance <? 0 then
    {| sim_balance := 0;
       sim_month := month;
       sim_totalInterestWithExtra := totalInterestWithExtra + balance * monthlyRate |}
  else
    {| sim_balance := balance;
       sim_month := month;
       sim_totalInterestWithExtra := totalInterestWithExtra |}.

(** The state in which the [while] loop of [calculateExtraPaymentImpact] is
    left, when it is granted one iteration for each value of [month] from 0
    up to the whole part of [loanTermMonths * 2]. *)
Definition sim_run (loanAmount interestRate loanTermYears extraMonthlyPayment : float)
  : SimState :=
  let loanTermMonths := loanTermYears * 12 in
  while_fuel (sim_cond loanTermMonths)
             (sim_body (interestRate / 100 / 12)
                       (calculateMonthlyPayment loanAmount interestRate loanTermYears)
                       extraMonthlyPayment)
             (S (whole_part (loanTermMonths * 2)))
             {| sim_balance := loanAmount;
                sim_month := 0;
                sim_totalInterestWithExtra := 0 |}.

Definition calculateExtraPaymentImpact
           (loanAmount interestRate loanTermYears extraMonthlyPayment : float)
  : completion ExtraPaymentImpact :=
  if loanAmount <=? 0 then
    Thrown "Loan amount must be positive"
  else if interestRate <? 0 then
    Thrown "Interest rate cannot be negative"
  else if loanTermYears <=? 0 then
    Thrown "Loan term must be positive"
  else if extraMonthlyPayment <? 0 then
    Thrown "Extra payment cannot be negative"
  else
    let loanTermMonths := loanTermYears * 12 in
    let standardMonthlyPayment :=
      calculateMonthlyPayment loanAmount interestRate loanTermYears in
    let totalStandardPayment := standardMonthlyPayment * loanTermMonths in
    let totalStandardInterest := totalStandardPayment - loanAmount in
    if extraMonthlyPayment =? 0 then
      Returned {| newLoanTermMonths := loanTermMonths;
                  monthsSaved := 0;
                  interestSaved := 0;
                  totalInterestStandard := totalStandardInterest;
                  totalInterestWithExtra := totalStandardInterest |}
    else
      let final :=
        sim_run loanAmount interestRate loanTermYears extraMonthlyPayment in
      let newLoanTermMonths := sim_month final in
      let monthsSaved := loanTermMonths - newLoanTermMonths in
      let interestSaved := totalStandardInterest - sim_totalInterestWithExtra final in
      Returned {| newLoanTermMonths := newLoanTermMonths;
                  monthsSaved := monthsSaved;
                  interestSaved := interestSaved;
                  totalInterestStandard := totalStandardInterest;
                  totalInterestWithExtra := sim_totalInterestWithExtra final |}.
End MortgageCalculator.

(** At a rate of 0 the code never calls [Math.pow]; this instance stands
    for it where the model is evaluated at such a rate. *)
Definition pow_not_called (x y : float) : float := nan.

(** [schedule.reduce((sum, payment) => sum + payment.principal, 0)] *)
Definition totalPrincipal (schedule : list PaymentScheduleEntry) : float :=
  fold_left (fun sum payment => sum + principal payment) schedule 0.
End Binary64.

(** ** Specification-side definitions *)

(** The running balance after [k] payments, with nothing clamped: the value
    of the variable [remainingBalance] of [generateAmortizationSchedule]
    (and of [balance] in [calculateExtraPaymentImpact] while it stays
    positive) after [k] iterations. *)
Fixpoint balance_after (monthlyPayment monthlyRate loanAmount : Q) (k : nat) : Q :=
  match k with
  | O => loanAmount
  | S k' =>
      let b := balance_after monthlyPayment monthlyRate loanAmount k' in
      b - (monthlyPayment - b * monthlyRate)
  end.

(** The entry pushed by iteration [i] (counted from 0) of the schedule loop,
    when the loop is entered with counter [first] and balance [loanAmount]. *)
Definition entry_from (first : Z) (monthlyPayment monthlyRate loanAmount : Q) (i : nat)
  : PaymentScheduleEntry :=
  let b := balance_after monthlyPayment monthlyRate loanAmount i in
  {| paymentNumber := first + Z.of_nat i;
     payment := monthlyPayment;
     principal := monthlyPayment - b * monthlyRate;
     interest := b * monthlyRate;
     remainingBalance :=
       Math_max 0 (balance_after monthlyPayment monthlyRate loanAmount (S i)) |}.

Definition entry_at : Q -> Q -> Q -> nat -> PaymentScheduleEntry := entry_from 1.

(** Equality of value on schedule entries. *)
Definition entry_equiv (e e' : PaymentScheduleEntry) : Prop :=
  paymentNumber e = paymentNumber e' /\
  payment e == payment e' /\
  principal e == principal e' /\
  interest e == interest e' /\
  remainingBalance e == remainingBalance e'.

(** A call ended by [throw]. *)
Definition raises {A : Type} (c : completion A) : Prop :=
  exists message, c = Thrown message.

(** The recurrence as the specification words it: the balance carried into
    the next period is the clamped one, [max(0, balance - principal)]. *)
Fixpoint spec_clamped_balance (monthlyPayment monthlyRate loanAmount : Q) (k : nat) : Q :=
  match k with
  | O => loanAmount
  | S k' =>
      let b := spec_clamped_balance monthlyPayment monthlyRate loanAmount k' in
      Math_max 0 (b - (monthlyPayment - b * monthlyRate))
  end.

(** Sum of the [principal] fields, as the test suite computes it:
    [schedule.reduce((sum, payment) => sum + payment.principal, 0)]. *)
Definition totalPrincipal (schedule : list PaymentScheduleEntry) : Q :=
  fold_left (fun sum payment => sum + principal payment) schedule 0.

(** Interest charged by the [k] payments that follow payment [j], on the
    running balance of the loan paid with [monthlyPayment]. *)
Fixpoint interest_between (monthlyPayment monthlyRate loanAmount : Q) (j k : nat) : Q :=
  match k with
  | O => 0
  | S k' =>
      balance_after monthlyPayment monthlyRate loanAmount j * monthlyRate
      + interest_between monthlyPayment monthlyRate loanAmount (S j) k'
  end.





(** ** The command-line interface ([index.ts])

    The prompts and the formatting of numbers are outside the model: the
    validators are functions of the value entered, the figures of the summary
    are functions of the answers, and the display of the schedule is the list
    of the lines it prints, a row standing for the formatted fields of its
    entry. *)

(** What an inquirer [validate] function returns: [true], or a message. *)
Inductive Validation : Type :=
| Accepted
| Rejected (message : string).

(** A value as a prompt hands it to its validator: a finite number, an
    infinity, or NaN, which also stands for [undefined], since a comparison
    converts that to NaN. *)
Inductive JsNumber : Type :=
| Finite (value : Q)
| PlusInfinity
| MinusInfinity
| NotANumber.

(** [x < y] and [x >= y] on such numbers: false when either is NaN. *)
Definition js_lt (x y : JsNumber) : bool :=
  match x, y with
  | NotANumber, _ | _, NotANumber => false
  | Finite a, Finite b => Qltb a b
  | _, MinusInfinity => false
  | MinusInfinity, _ => true
  | PlusInfinity, _ => false
  | Finite _, PlusInfinity => true
  end.

Definition js_ge (x y : JsNumber) : bool :=
  match x, y with
  | NotANumber, _ | _, NotANumber => false
  | Finite a, Finite b => Qle_bool b a
  | _, MinusInfinity => true
  | MinusInfinity, _ => false
  | PlusInfinity, _ => true
  | Finite _, PlusInfinity => false
  end.

(** The [answers] argument of the down-payment validator, typed [any]: not an
    object (or [null]); or an object, with its [propertyPrice] when that is a
    number, and, when [answers.answers] is truthy, the [propertyPrice] of
    that when it is a number. *)
Inductive AnswersArgument : Type :=
| NotAnObject
| AnswersObject (propertyPrice : option JsNumber)
                (nested : option (option JsNumber)).

Definition MAX_SAFE_INTEGER : Q := 9007199254740991.

Definition validatePropertyPrice (value : JsNumber) : Validation :=
  if js_lt (Finite 0) value then Accepted
  else Rejected "Please enter a positive number".

Definition validateDownPayment (value : JsNumber) (answers : AnswersArgument)
  : Validation :=
  if js_lt value (Finite 0) then Rejected "Please enter a non-negative number"
  else
    let propertyPrice :=
      match answers with
      | AnswersObject (Some price) _ => price
      | AnswersObject None (Some (Some price)) => price
      | AnswersObject None _ => Finite MAX_SAFE_INTEGER
      | NotAnObject => Finite MAX_SAFE_INTEGER
      end in
    if js_ge value propertyPrice then
      Rejected "Down payment cannot exceed the property price"
    else Accepted.

Definition validateInterestRate (value : JsNumber) : Validation :=
  if js_ge value (Finite 0) then Accepted
  else Rejected "Please enter a non-negative number".

Definition validateLoanTerm (value : JsNumber) : Validation :=
  if js_lt (Finite 0) value then Accepted
  else Rejected "Please enter a positive number".




(** A line of the schedule display: the row of an entry, or ['...']. *)
Inductive DisplayLine : Type :=
| Row (payment : PaymentScheduleEntry)
| Ellipsis.

(** [schedule[index]]: nothing outside the array. *)
Definition array_get {A : Type} (l : list A) (index : Z) : option A :=
  if (index <? 0)%Z then None else nth_error l (Z.to_nat index).

(** How a display loop stands: running, left by [break], or aborted by the
    TypeError of reading a field of [undefined]. *)
Inductive LoopFlow : Type := Running | Broken | Failed.

Definition is_running (flow : LoopFlow) : bool :=
  match flow with Running => true | _ => false end.

Record DisplayState : Type := mkDisplayState {
  ds_counter : Z;
  ds_lines : list DisplayLine;
  ds_flow : LoopFlow
}.

(** [for (let i = 0; i < Math.min(12, schedule.length); i++)] *)
Definition first_rows_cond (schedule : list PaymentScheduleEntry)
           (s : DisplayState) : bool :=
  is_running (ds_flow s) &&
  (ds_counter s <? Z.min 12 (Z.of_nat (length schedule)))%Z.

Definition first_rows_body (schedule : list PaymentScheduleEntry)
           (s : DisplayState) : DisplayState :=
  match array_get schedule (ds_counter s) with
  | None => {| ds_counter := ds_counter s; ds_lines := ds_lines s; ds_flow := Failed |}
  | Some payment =>
      {| ds_counter := ds_counter s + 1;
         ds_lines := ds_lines s ++ [Row payment];
         ds_flow := ds_flow s |}
  end.

(** [for (let year = 2; year <= loanTerm; year += Math.ceil(loanTerm / 10))] *)
Definition year_rows_cond (loanTerm : Q) (s : DisplayState) : bool :=
  is_running (ds_flow s) && Qle_bool (inject_Z (ds_counter s)) loanTerm.

Definition year_rows_body (schedule : list PaymentScheduleEntry) (loanTerm : Q)
           (s : DisplayState) : DisplayState :=
  let year := ds_counter s in
  if Qltb loanTerm (inject_Z year) then
    {| ds_counter := year; ds_lines := ds_lines s; ds_flow := Broken |}
  else
    let paymentIndex := (year * 12 - 1)%Z in
    if (Z.of_nat (length schedule) <=? paymentIndex)%Z then
      {| ds_counter := year; ds_lines := ds_lines s; ds_flow := Broken |}
    else
      match array_get schedule paymentIndex with
      | None => {| ds_counter := year; ds_lines := ds_lines s; ds_flow := Failed |}
      | Some payment =>
          {| ds_counter := year + Qceiling (loanTerm / 10);
             ds_lines := ds_lines s ++ [Row payment];
             ds_flow := ds_flow s |}
      end.

(** Iterations granted to the year loop: [year] starts at 2 and grows by at
    least 1 while it is at most [loanTerm]. *)
Definition year_rows_fuel (loanTerm : Q) : nat := Z.to_nat (Qfloor loanTerm).

(** The rows printed under the column headings, when the user asks for the
    schedule: the first 12 payments, then for a term above one year a
    payment at year intervals and the final payment.  [None] is an uncaught
    TypeError. *)
Definition displaySchedule (schedule : list PaymentScheduleEntry) (loanTerm : Q)
  : option (list DisplayLine) :=
  let first :=
    while_fuel (first_rows_cond schedule) (first_rows_body schedule) 12
               {| ds_counter := 0; ds_lines := []; ds_flow := Running |} in
  match ds_flow first with
  | Failed => None
  | _ =>
      if Qltb 1 loanTerm then
        let years :=
          while_fuel (year_rows_cond loanTerm) (year_rows_body schedule loanTerm)
                     (year_rows_fuel loanTerm)
                     {| ds_counter := 2;
                        ds_lines := ds_lines first ++ [Ellipsis];
                        ds_flow := Running |} in
        match ds_flow years with
        | Failed => None
        | _ =>
            if (0 <? Z.of_nat (length schedule))%Z then
              match array_get schedule (Z.of_nat (length schedule) - 1) with
              | None => None
              | Some finalPayment =>
                  Some (ds_lines years ++ [Ellipsis; Row finalPayment])
              end
            else Some (ds_lines years)
        end
      else Some (ds_lines first)
  end.

(** A displayed row shows an entry of the schedule. *)
Definition line_of (schedule : list PaymentScheduleEntry) (line : DisplayLine) : Prop :=
  match line with
  | Row payment => In payment schedule
  | Ellipsis => True
  end.

(** ** Facts about loops *)

Section WhileFacts.
Context {State : Type}.
Variable cond : State -> bool.
Variable body : State -> State.

Lemma while_fuel_run (fuel : nat) :
  forall s, cond (while_fuel cond body fuel s) = false ->
            while_run cond body s (while_fuel cond body fuel s).
Proof.
  induction fuel as [|fuel IH]; intros s Hexit; simpl in *.
  - now apply while_exit.
  - destruct (cond s) eqn:Hc.
    + apply while_iter; auto.
    + now apply while_exit.
Qed.

Lemma while_run_exit s s' :
  while_run cond body s s' -> cond s' = false.
Proof. induction 1; auto. Qed.

Lemma while_run_deterministic s s1 s2 :
  while_run cond body s s1 -> while_run cond body s s2 -> s1 = s2.
Proof.
  intros H1; revert s2.
  induction H1 as [s Hc|s s' Hc _ IH]; intros s2 H2; inversion H2; subst;
    try congruence; auto.
Qed.

Lemma while_fuel_stable (fuel extra : nat) :
  forall s, cond (while_fuel cond body fuel s) = false ->
            while_fuel cond body (fuel + extra) s = while_fuel cond body fuel s.
Proof.
  induction fuel as [|fuel IH]; intros s Hexit; simpl in *.
  - destruct extra; simpl; [reflexivity | now rewrite Hexit].
  - destruct (cond s); auto.
Qed.
End WhileFacts.


(** ** Facts about the boolean tests *)

Lemma Qltb_lt x y : Qltb x y = true <-> x < y.
Proof.
  unfold Qltb. rewrite negb_true_iff, <- not_true_iff_false, Qle_bool_iff.
  split; [apply Qnot_le_lt | apply Qlt_not_le].
Qed.

Lemma Qltb_ge x y : Qltb x y = false <-> y <= x.
Proof. unfold Qltb. now rewrite negb_false_iff, Qle_bool_iff. Qed.

Lemma Qle_bool_gt x y : Qle_bool x y = false <-> y < x.
Proof.
  rewrite <- not_true_iff_false, Qle_bool_iff.
  split; [apply Qnot_le_lt | apply Qlt_not_le].
Qed.

Lemma Qeq_bool_false x y : Qeq_bool x y = false <-> ~ x == y.
Proof. now rewrite <- not_true_iff_false, Qeq_bool_iff. Qed.

#[export] Instance Qle_bool_proper : Proper (Qeq ==> Qeq ==> eq) Qle_bool.
Proof.
  intros x x' Hx y y' Hy.
  destruct (Qle_bool x y) eqn:E, (Qle_bool x' y') eqn:E'; auto.
  - apply Qle_bool_iff in E. apply Qle_bool_gt in E'. rewrite Hx, Hy in E. lra.
  - apply Qle_bool_iff in E'. apply Qle_bool_gt in E. rewrite Hx, Hy in E. lra.
Qed.


Lemma Math_max_l x y : y <= x -> Math_max x y == x.
Proof. intros H. unfold Math_max. now apply Q.max_l. Qed.

Lemma Math_max_r x y : x <= y -> Math_max x y == y.
Proof. intros H. unfold Math_max. now apply Q.max_r. Qed.



(** ** The schedule loop, iteration by iteration *)

Lemma balance_after_shift M r b k :
  balance_after M r (b - (M - b * r)) k = balance_after M r b (S k).
Proof.
  induction k as [|k IH]; [reflexivity|].
  change (balance_after M r (b - (M - b * r)) (S k))
    with (balance_after M r (b - (M - b * r)) k
          - (M - balance_after M r (b - (M - b * r)) k * r)).
  now rewrite IH.
Qed.

Lemma schedule_cond_true total s :
  (st_paymentNumber s <= Qfloor total)%Z -> schedule_cond total s = true.
Proof.
  intros H. unfold schedule_cond. apply Qle_bool_iff.
  apply Qle_trans with (inject_Z (Qfloor total)); [|apply Qfloor_le].
  now rewrite <- Zle_Qle.
Qed.

Lemma schedule_cond_false total s :
  (Qfloor total < st_paymentNumber s)%Z -> schedule_cond total s = false.
Proof.
  intros H. unfold schedule_cond. apply Qle_bool_gt.
  apply Qlt_le_trans with (inject_Z (Qfloor total + 1)); [apply Qlt_floor|].
  rewrite <- Zle_Qle. lia.
Qed.

Lemma schedule_loop_unfold M r total :
  forall k s,
    ((0 < k)%nat -> (st_paymentNumber s + Z.of_nat k <= Qfloor total + 1)%Z) ->
    while_fuel (schedule_cond total) (schedule_body M r) k s =
    {| st_paymentNumber := st_paymentNumber s + Z.of_nat k;
       st_remainingBalance := balance_after M r (st_remainingBalance s) k;
       st_schedule :=
         st_schedule s ++
         map (entry_from (st_paymentNumber s) M r (st_remainingBalance s)) (seq 0 k) |}.
Proof.
  induction k as [|k IH]; intros s Hk.
  - destruct s as [pn b sched]; simpl. now rewrite Z.add_0_r, app_nil_r.
  - assert (Hk' := Hk (Nat.lt_0_succ k)).
    cbn [while_fuel]. rewrite schedule_cond_true by lia.
    rewrite IH by (unfold schedule_body; simpl; lia).
    unfold schedule_body; cbn [st_paymentNumber st_remainingBalance st_schedule].
    f_equal.
    + lia.
    + apply balance_after_shift.
    + rewrite <- app_assoc. f_equal. cbn [seq map app]. f_equal.
      * unfold entry_from. cbn [balance_after]. now rewrite Z.add_0_r.
      * rewrite <- seq_shift, map_map. apply map_ext; intros i.
        unfold entry_from. rewrite !balance_after_shift. f_equal. lia.
Qed.

Lemma schedule_fuel_bound total :
  (0 < schedule_fuel total)%nat ->
  (1 + Z.of_nat (schedule_fuel total) <= Qfloor total + 1)%Z.
Proof. unfold schedule_fuel. lia. Qed.

Lemma schedule_final_state L M r total :
  while_fuel (schedule_cond total) (schedule_body M r)
             (schedule_fuel total) (schedule_init L) =
  {| st_paymentNumber := 1 + Z.of_nat (schedule_fuel total);
     st_remainingBalance := balance_after M r L (schedule_fuel total);
     st_schedule := map (entry_at M r L) (seq 0 (schedule_fuel total)) |}.
Proof.
  rewrite schedule_loop_unfold by apply schedule_fuel_bound. reflexivity.
Qed.

Lemma generateAmortizationSchedule_entries L M a t :
  generateAmortizationSchedule L M a t =
  map (entry_at M (a / 100 / 12) L) (seq 0 (schedule_fuel (t * 12))).
Proof.
  unfold generateAmortizationSchedule. cbv zeta.
  now rewrite schedule_final_state.
Qed.

Lemma schedule_loop_exits L M r total :
  schedule_cond total
    (while_fuel (schedule_cond total) (schedule_body M r)
                (schedule_fuel total) (schedule_init L)) = false.
Proof.
  rewrite schedule_final_state. apply schedule_cond_false.
  cbn [st_paymentNumber]. unfold schedule_fuel. lia.
Qed.

Lemma schedule_fuel_whole total (N : Z) :
  total == inject_Z N -> Z.of_nat (schedule_fuel total) = Z.max 0 N.
Proof.
  intros H. unfold schedule_fuel.
  rewrite (Qfloor_comp _ _ H), Qfloor_Z. lia.
Qed.

#[export] Instance balance_after_proper :
  Proper (Qeq ==> Qeq ==> Qeq ==> eq ==> Qeq) balance_after.
Proof.
  intros M M' HM r r' Hr b b' Hb k k' <-.
  induction k as [|k IH]; cbn [balance_after]; [assumption|].
  cbv zeta. now rewrite IH, HM, Hr.
Qed.

#[export] Instance Math_max_proper : Proper (Qeq ==> Qeq ==> Qeq) Math_max.
Proof. intros x x' Hx y y' Hy. unfold Math_max. now rewrite Hx, Hy. Qed.

Lemma entry_at_equiv M M' r r' L L' i :
  M == M' -> r == r' -> L == L' ->
  entry_equiv (entry_at M r L i) (entry_at M' r' L' i).
Proof.
  intros HM Hr HL. unfold entry_equiv, entry_at, entry_from; cbn.
  repeat split; auto; now rewrite ?HM, ?Hr, ?HL.
Qed.

(** ** The simulation loop *)

Lemma sim_body_month r M e s :
  sim_month (sim_body r M e s) = (sim_month s + 1)%Z.
Proof. unfold sim_body. cbv zeta. now destruct (Qltb _ 0). Qed.

Lemma sim_cond_split n s :
  sim_cond n s = true <-> 0 < sim_balance s /\ inject_Z (sim_month s) < n * 2.
Proof. unfold sim_cond. now rewrite andb_true_iff, !Qltb_lt. Qed.

Lemma sim_cond_stop n s :
  sim_cond n s = false <-> sim_balance s <= 0 \/ n * 2 <= inject_Z (sim_month s).
Proof. unfold sim_cond. now rewrite andb_false_iff, !Qltb_ge. Qed.

Lemma sim_loop_exits n r M e :
  forall fuel s,
    (Qceiling (n * 2) <= sim_month s + Z.of_nat fuel)%Z ->
    sim_cond n (while_fuel (sim_cond n) (sim_body r M e) fuel s) = false.
Proof.
  induction fuel as [|fuel IH]; intros s Hf; cbn [while_fuel].
  - apply sim_cond_stop. right.
    apply Qle_trans with (inject_Z (Qceiling (n * 2))); [apply Qle_ceiling|].
    rewrite <- Zle_Qle. lia.
  - destruct (sim_cond n s) eqn:Hc; [|assumption].
    apply IH. rewrite sim_body_month. lia.
Qed.

Lemma sim_loop_month_range n r M e :
  forall fuel s,
    (sim_month s <= Z.max (sim_month s) (Qceiling (n * 2)))%Z ->
    (sim_month s <= sim_month (while_fuel (sim_cond n) (sim_body r M e) fuel s)
     <= Z.max (sim_month s) (Qceiling (n * 2)))%Z.
Proof.
  induction fuel as [|fuel IH]; intros s _; cbn [while_fuel]; [lia|].
  destruct (sim_cond n s) eqn:Hc; [|lia].
  apply sim_cond_split in Hc. destruct Hc as [_ Hm].
  assert (sim_month s < Qceiling (n * 2))%Z.
  { rewrite Zlt_Qlt. eapply Qlt_le_trans; [exact Hm | apply Qle_ceiling]. }
  specialize (IH (sim_body r M e s)). rewrite sim_body_month in IH. lia.
Qed.

Lemma sim_stops_at_zero n r M e fuel s :
  sim_balance s <= 0 ->
  while_fuel (sim_cond n) (sim_body r M e) fuel s = s.
Proof.
  intros H. destruct fuel; cbn [while_fuel]; [reflexivity|].
  now rewrite (proj2 (sim_cond_stop n s) (or_introl H)).
Qed.

(** One iteration: either the payment overshoots and the balance is reset
    to 0, or the reduced balance is kept. *)
Lemma sim_body_cases r M e s :
  let after := sim_balance s - (M + e - sim_balance s * r) in
  (after < 0 /\
   sim_body r M e s =
   {| sim_balance := 0;
      sim_month := sim_month s + 1;
      sim_totalInterestWithExtra :=
        sim_totalInterestWithExtra s + sim_balance s * r + after * r |})
  \/
  (0 <= after /\
   sim_body r M e s =
   {| sim_balance := after;
      sim_month := sim_month s + 1;
      sim_totalInterestWithExtra :=
        sim_totalInterestWithExtra s + sim_balance s * r |}).
Proof.
  cbv zeta. unfold sim_body. cbv zeta.
  destruct (Qltb (sim_balance s - (M + e - sim_balance s * r)) 0) eqn:E.
  - left. split; [now apply Qltb_lt | reflexivity].
  - right. split; [now apply Qltb_ge | reflexivity].
Qed.

(** If the unclamped balance under the total payment is not positive after
    [k] more payments, the loop runs at most [k] more iterations. *)
Lemma sim_loop_crossing n r M e :
  forall k fuel s,
    balance_after (M + e) r (sim_balance s) k <= 0 ->
    (sim_month (while_fuel (sim_cond n) (sim_body r M e) fuel s)
     <= sim_month s + Z.of_nat k)%Z.
Proof.
  induction k as [|k IH]; intros fuel s Hk.
  - cbn [balance_after] in Hk. rewrite sim_stops_at_zero by exact Hk. lia.
  - destruct fuel as [|fuel]; cbn [while_fuel]; [lia|].
    destruct (sim_cond n s); [|lia].
    destruct (sim_body_cases r M e s) as [[Hneg ->]|[Hpos ->]].
    + rewrite sim_stops_at_zero by (cbn; lra). cbn [sim_month]. lia.
    + etransitivity; [apply IH|]; cbn [sim_balance sim_month]; [|lia].
      now rewrite balance_after_shift.
Qed.

(** ** Arithmetic of the standard loan

    The closed form behind the annuity formula: with [q = 1 + r], a loan paid
    with the payment of [calculateMonthlyPayment] has balance
    [L * (q^n - q^j) / (q^n - 1)] after [j] payments (and
    [L * (n - j) / n] at rate 0), so it falls strictly and is 0 after [n]
    payments. *)

Lemma Qpower_succ (q : Q) (j : nat) :
  q ^ Z.of_nat (S j) == q * q ^ Z.of_nat j.
Proof.
  rewrite Nat2Z.inj_succ. unfold Z.succ.
  rewrite Qpower_plus' by lia. rewrite Qpower_1_r. ring.
Qed.

Lemma inject_Z_succ (j : nat) :
  inject_Z (Z.of_nat (S j)) == inject_Z (Z.of_nat j) + 1.
Proof. rewrite Nat2Z.inj_succ. unfold Z.succ. now rewrite inject_Z_plus. Qed.

Lemma monthlyRate_nonneg (a : Q) : 0 <= a -> 0 <= a / 100 / 12.
Proof.
  intros H. unfold Qdiv.
  apply Qmult_le_0_compat; [apply Qmult_le_0_compat|]; auto; discriminate.
Qed.


Lemma balance_after_succ M r b k :
  balance_after M r b (S k) == balance_after M r b k * (1 + r) - M.
Proof. cbn [balance_after]. cbv zeta. ring. Qed.

(** Closed form of the running balance under any payment [P]. *)
Lemma balance_after_closed P r b k :
  balance_after P r b k * r == (b * r - P) * (1 + r) ^ Z.of_nat k + P.
Proof.
  induction k as [|k IH].
  - cbn [balance_after]. change (Z.of_nat 0) with 0%Z. rewrite Qpower_0_r. ring.
  - rewrite balance_after_succ, Qpower_succ.
    transitivity (balance_after P r b k * r * (1 + r) - P * r); [ring|].
    rewrite IH. ring.
Qed.

Section StandardLoan.
Variable Math_pow : Q -> Q -> Q.
Hypothesis Math_pow_whole :
  forall x y (z : Z), (0 <= z)%Z -> y == inject_Z z -> Math_pow x y == x ^ z.

Variables (L a t : Q) (n : nat).
Hypothesis L_pos : 0 < L.
Hypothesis a_nonneg : 0 <= a.
Hypothesis n_pos : (0 < n)%nat.
Hypothesis term_whole : t * 12 == inject_Z (Z.of_nat n).

Let r := a / 100 / 12.
Let M := calculateMonthlyPayment Math_pow L a t.

Lemma r_nonneg : 0 <= r.
Proof. now apply monthlyRate_nonneg. Qed.

(** The balance after [j] payments is [L * g j / D] for a positive [D] and
    a strictly decreasing [g] that vanishes at [n]. *)
Lemma standard_profile :
  exists (D : Q) (g : nat -> Q),
    0 < D /\
    (forall j, balance_after M r L j * D == L * g j) /\
    (forall j, g (S j) < g j) /\
    g n == 0.
Proof.
  assert (Hn : 0 < inject_Z (Z.of_nat n)).
  { change 0 with (inject_Z 0). rewrite <- Zlt_Qlt. lia. }
  destruct (Qeq_bool r 0) eqn:Hr.
  - (* rate 0: straight-line repayment *)
    apply Qeq_bool_iff in Hr.
    assert (HM : M * inject_Z (Z.of_nat n) == L).
    { unfold M, calculateMonthlyPayment. cbv zeta. fold r.
      rewrite (proj2 (Qeq_bool_iff r 0) Hr), term_whole. field. lra. }
    exists (inject_Z (Z.of_nat n)),
           (fun j => inject_Z (Z.of_nat n) - inject_Z (Z.of_nat j)).
    split; [exact Hn|]. split; [|split].
    + cbv beta. induction j as [|j IH].
      * cbn [balance_after]. change (inject_Z (Z.of_nat 0)) with 0. ring.
      * assert (Hz : balance_after M r L j * r == 0) by (rewrite Hr; ring).
        rewrite balance_after_succ, inject_Z_succ.
        transitivity (balance_after M r L j * inject_Z (Z.of_nat n)
                      + balance_after M r L j * r * inject_Z (Z.of_nat n)
                      - M * inject_Z (Z.of_nat n)); [ring|].
        rewrite Hz, IH, HM. ring.
    + cbv beta. intros j. rewrite inject_Z_succ. lra.
    + cbv beta. ring.
  - (* positive rate: the annuity formula *)
    apply Qeq_bool_false in Hr.
    assert (Hrpos : 0 < r) by (pose proof r_nonneg; lra).
    assert (Hq : 1 < 1 + r) by lra.
    set (Q_n := (1 + r) ^ Z.of_nat n).
    assert (HQn : 1 < Q_n) by (apply Qpower_1_lt; [exact Hq | lia]).
    assert (Hpow : Math_pow (1 + r) (t * 12) == Q_n).
    { apply Math_pow_whole; [lia | exact term_whole]. }
    assert (HM : M * (Q_n - 1) == L * (r * Q_n)).
    { unfold M, calculateMonthlyPayment. cbv zeta. fold r.
      rewrite (proj2 (Qeq_bool_false r 0) Hr), Hpow. field. lra. }
    exists (Q_n - 1), (fun j => Q_n - (1 + r) ^ Z.of_nat j).
    split; [lra|]. cbv beta. split; [|split].
    + induction j as [|j IH].
      * cbn [balance_after]. change (Z.of_nat 0) with 0%Z.
        rewrite Qpower_0_r. ring.
      * rewrite balance_after_succ, Qpower_succ.
        transitivity (balance_after M r L j * (Q_n - 1) * (1 + r)
                      - M * (Q_n - 1)); [ring|].
        rewrite IH, HM. ring.
    + intros j. rewrite Qpower_succ.
      assert (0 < (1 + r) ^ Z.of_nat j) by (apply Qpower_0_lt; lra).
      nra.
    + unfold Q_n. ring.
Qed.

Lemma std_balance_final : balance_after M r L n == 0.
Proof.
  destruct standard_profile as (D & g & HD & Hg & _ & Hn).
  assert (H : balance_after M r L n * D == 0) by (rewrite Hg, Hn; ring).
  destruct (Qmult_integral _ _ H) as [H0|H0]; [exact H0 | lra].
Qed.

Lemma std_balance_step j : balance_after M r L (S j) < balance_after M r L j.
Proof.
  destruct standard_profile as (D & g & HD & Hg & Hdec & _).
  assert (H : balance_after M r L (S j) * D < balance_after M r L j * D).
  { rewrite !Hg. specialize (Hdec j). nra. }
  nra.
Qed.

Lemma std_balance_antitone i j :
  (i <= j)%nat -> balance_after M r L j <= balance_after M r L i.
Proof.
  induction 1 as [|j _ IH]; [lra|].
  pose proof (std_balance_step j). lra.
Qed.

Lemma std_balance_nonneg j : (j <= n)%nat -> 0 <= balance_after M r L j.
Proof.
  intros H. rewrite <- std_balance_final. now apply std_balance_antitone.
Qed.


Lemma interest_between_closed k :
  forall j,
    interest_between M r L j k ==
    balance_after M r L (j + k) - balance_after M r L j
    + inject_Z (Z.of_nat k) * M.
Proof.
  induction k as [|k IH]; intros j.
  - cbn [interest_between]. rewrite Nat.add_0_r.
    change (inject_Z (Z.of_nat 0)) with 0. ring.
  - cbn [interest_between]. rewrite IH, inject_Z_succ, Nat.add_succ_r.
    cbn [Nat.add]. rewrite (balance_after_succ M r L j). ring.
Qed.

Lemma interest_between_nonneg k :
  forall j, (j + k <= S n)%nat -> 0 <= interest_between M r L j k.
Proof.
  induction k as [|k IH]; intros j Hj; cbn [interest_between]; [lra|].
  assert (0 <= balance_after M r L j) by (apply std_balance_nonneg; lia).
  assert (0 <= interest_between M r L (S j) k) by (apply IH; lia).
  pose proof r_nonneg. nra.
Qed.

(** Interest of the whole standard plan: what [calculateExtraPaymentImpact]
    computes as [totalStandardInterest]. *)
Lemma standard_interest_total :
  interest_between M r L 0 n == M * (t * 12) - L.
Proof.
  rewrite interest_between_closed, term_whole. cbn [Nat.add balance_after].
  rewrite std_balance_final. ring.
Qed.

Variable e : Q.
Hypothesis e_nonneg : 0 <= e.

(** While the simulated balance stays below the standard one, the loop ends
    within the standard term and charges no more interest than the standard
    plan does from that month on. *)
Lemma sim_interest_bound :
  forall fuel s j,
    sim_month s = Z.of_nat j -> (j < n)%nat ->
    0 <= sim_balance s -> sim_balance s <= balance_after M r L j ->
    let final := while_fuel (sim_cond (t * 12)) (sim_body r M e) fuel s in
    (sim_month final <= Z.of_nat n)%Z /\
    sim_totalInterestWithExtra final <=
      sim_totalInterestWithExtra s + sim_balance s * r
      + interest_between M r L (S j) (n - 1 - j).
Proof.
  pose proof r_nonneg as Hr.
  induction fuel as [|fuel IH]; intros s j Hm Hj Hb0 Hb; cbv zeta.
  - cbn [while_fuel].
    assert (0 <= interest_between M r L (S j) (n - 1 - j))
      by (apply interest_between_nonneg; lia).
    split; [lia | nra].
  - cbn [while_fuel].
    assert (Htail : 0 <= interest_between M r L (S j) (n - 1 - j))
      by (apply interest_between_nonneg; lia).
    destruct (sim_cond (t * 12) s) eqn:Hc; [|split; [lia | nra]].
    destruct (sim_body_cases r M e s) as [[Hneg ->]|[Hpos ->]].
    + rewrite sim_stops_at_zero by (cbn; lra).
      cbn [sim_month sim_totalInterestWithExtra]. split; [lia | nra].
    + set (after := sim_balance s - (M + e - sim_balance s * r)) in *.
      assert (Hafter : after <= balance_after M r L (S j)).
      { rewrite balance_after_succ. unfold after. nra. }
      destruct (Nat.eq_dec (S j) n) as [Hlast|Hmore].
      * assert (after == 0).
        { pose proof std_balance_final. rewrite Hlast in Hafter. lra. }
        rewrite sim_stops_at_zero by (cbn; lra).
        cbn [sim_month sim_totalInterestWithExtra]. split; [lia | nra].
      * specialize (IH {| sim_balance := after;
                          sim_month := sim_month s + 1;
                          sim_totalInterestWithExtra :=
                            sim_totalInterestWithExtra s + sim_balance s * r |}
                       (S j)).
        cbn [sim_balance sim_month sim_totalInterestWithExtra] in IH.
        destruct IH as [IHm IHi]; try lia; try assumption.
        split; [exact IHm|].
        replace (n - 1 - j)%nat with (S (n - 1 - S j)) by lia.
        cbn [interest_between]. nra.
Qed.

Let final := while_fuel (sim_cond (t * 12)) (sim_body r M e)
                        (sim_fuel (t * 12)) (sim_init L).



Lemma standard_interest_split :
  interest_between M r L 0 n ==
  L * r + interest_between M r L 1 (n - 1).
Proof.
  set (m := (n - 1)%nat). assert (Hn : n = S m) by lia.
  rewrite Hn. reflexivity.
Qed.

Lemma extra_interest_bound :
  sim_totalInterestWithExtra final <= M * (t * 12) - L.
Proof.
  rewrite <- standard_interest_total, standard_interest_split.
  destruct (sim_interest_bound (sim_fuel (t * 12)) (sim_init L) 0%nat)
    as [_ H]; cbn [sim_init sim_month sim_balance balance_after]; auto;
    try lra.
  fold final in H. cbn [sim_init sim_balance sim_totalInterestWithExtra] in H.
  replace (n - 1 - 0)%nat with (n - 1)%nat in H by lia. lra.
Qed.





End StandardLoan.

(** ** Evaluating the simulation on concrete inputs

    The loop is insensitive to the representation of its rationals, so it can
    be run with every intermediate fraction in lowest terms. *)







(** ** What [calculateExtraPaymentImpact] returns *)

Lemma validation_passes (L a t e : Q) :
  0 < L -> 0 <= a -> 0 < t -> 0 <= e ->
  Qle_bool L 0 = false /\ Qltb a 0 = false /\
  Qle_bool t 0 = false /\ Qltb e 0 = false.
Proof.
  intros. repeat split;
    first [now apply Qle_bool_gt | now apply Qltb_ge].
Qed.

Lemma calculateExtraPaymentImpact_baseline Math_pow L a t e :
  0 < L -> 0 <= a -> 0 < t -> e == 0 ->
  calculateExtraPaymentImpact Math_pow L a t e =
  Returned {| newLoanTermMonths := t * 12;
              monthsSaved := 0;
              interestSaved := 0;
              totalInterestStandard :=
                calculateMonthlyPayment Math_pow L a t * (t * 12) - L;
              totalInterestWithExtra :=
                calculateMonthlyPayment Math_pow L a t * (t * 12) - L |}.
Proof.
  intros HL Ha Ht He.
  destruct (validation_passes L a t e) as (H1 & H2 & H3 & H4); auto; [lra|].
  unfold calculateExtraPaymentImpact. rewrite H1, H2, H3, H4. cbv zeta.
  now rewrite (proj2 (Qeq_bool_iff e 0) He).
Qed.

Lemma calculateExtraPaymentImpact_simulated Math_pow L a t e :
  0 < L -> 0 <= a -> 0 < t -> 0 < e ->
  let M := calculateMonthlyPayment Math_pow L a t in
  let final := while_fuel (sim_cond (t * 12)) (sim_body (a / 100 / 12) M e)
                          (sim_fuel (t * 12)) (sim_init L) in
  calculateExtraPaymentImpact Math_pow L a t e =
  Returned {| newLoanTermMonths := inject_Z (sim_month final);
              monthsSaved := t * 12 - inject_Z (sim_month final);
              interestSaved :=
                M * (t * 12) - L - sim_totalInterestWithExtra final;
              totalInterestStandard := M * (t * 12) - L;
              totalInterestWithExtra := sim_totalInterestWithExtra final |}.
Proof.
  intros HL Ha Ht He.
  destruct (validation_passes L a t e) as (H1 & H2 & H3 & H4); auto; [lra|].
  unfold calculateExtraPaymentImpact. rewrite H1, H2, H3, H4. cbv zeta.
  assert (Hne : Qeq_bool e 0 = false) by (apply Qeq_bool_false; lra).
  now rewrite Hne.
Qed.


(** * Properties *)

(** ** The monthly payment *)

(** C1. For every [loanAmount], [annualInterestRatePercent] and [termYears],
    with monthly rate [r = annualInterestRatePercent / 100 / 12] and
    [n = termYears * 12]: [calculateMonthlyPayment] returns [loanAmount / n]
    when [r] equals 0, and otherwise the annuity formula
    [loanAmount * (r * (1+r)^n) / ((1+r)^n - 1)], the power being the one
    [Math.pow] computes. *)
Theorem calculateMonthlyPayment_formula
        (Math_pow : Q -> Q -> Q) (loanAmount annualInterestRatePercent termYears : Q) :
  let r := annualInterestRatePercent / 100 / 12 in
  let n := termYears * 12 in
  (r == 0 ->
   calculateMonthlyPayment Math_pow loanAmount annualInterestRatePercent termYears
   = loanAmount / n) /\
  (~ r == 0 ->
   calculateMonthlyPayment Math_pow loanAmount annualInterestRatePercent termYears
   = loanAmount * (r * Math_pow (1 + r) n) / (Math_pow (1 + r) n - 1)).
Proof.
  cbv zeta. unfold calculateMonthlyPayment. cbv zeta. split; intros Hr.
  - now rewrite (proj2 (Qeq_bool_iff _ _) Hr).
  - now rewrite (proj2 (Qeq_bool_false _ _) Hr).
Qed.

(** Both branches at the scenarios of the test suite: 150000 at 0% over 15
    years, and 200000 at 5.5% over 30 years. *)
Lemma calculateMonthlyPayment_formula_witness :
  calculateMonthlyPayment pow_whole 150000 0 15 = 150000 / (15 * 12) /\
  calculateMonthlyPayment pow_whole 200000 5.5 30
  = 200000 * (5.5 / 100 / 12 * pow_whole (1 + 5.5 / 100 / 12) (30 * 12))
    / (pow_whole (1 + 5.5 / 100 / 12) (30 * 12) - 1).
Proof.
  split.
  - apply (calculateMonthlyPayment_formula pow_whole 150000 0 15). reflexivity.
  - apply (calculateMonthlyPayment_formula pow_whole 200000 5.5 30). discriminate.
Defined.

(** ** Validation of the extra-payment inputs *)

(** C3. [calculateExtraPaymentImpact] throws exactly when [loanAmount <= 0],
    or [annualInterestRatePercent < 0], or [termYears <= 0], or
    [extraMonthlyPayment < 0]; a call that throws returns no result; in
    particular [loanAmount = 0], [annualInterestRatePercent = -1],
    [termYears = 0] and [extraMonthlyPayment = -50] are rejected whatever the
    other arguments are. *)
Theorem calculateExtraPaymentImpact_validation (Math_pow : Q -> Q -> Q) :
  (forall loanAmount annualInterestRatePercent termYears extraMonthlyPayment,
      raises (calculateExtraPaymentImpact Math_pow loanAmount
                annualInterestRatePercent termYears extraMonthlyPayment)
      <-> (loanAmount <= 0 \/ annualInterestRatePercent < 0 \/
           termYears <= 0 \/ extraMonthlyPayment < 0)) /\
  (forall loanAmount annualInterestRatePercent termYears extraMonthlyPayment impact,
      raises (calculateExtraPaymentImpact Math_pow loanAmount
                annualInterestRatePercent termYears extraMonthlyPayment) ->
      calculateExtraPaymentImpact Math_pow loanAmount
        annualInterestRatePercent termYears extraMonthlyPayment
      <> Returned impact) /\
  (forall a t e, raises (calculateExtraPaymentImpact Math_pow 0 a t e)) /\
  (forall L t e, raises (calculateExtraPaymentImpact Math_pow L (-1) t e)) /\
  (forall L a e, raises (calculateExtraPaymentImpact Math_pow L a 0 e)) /\
  (forall L a t, raises (calculateExtraPaymentImpact Math_pow L a t (-50))).
Proof.
  assert (Hiff : forall L a t e,
             raises (calculateExtraPaymentImpact Math_pow L a t e)
             <-> (L <= 0 \/ a < 0 \/ t <= 0 \/ e < 0)).
  { intros L a t e. unfold raises, calculateExtraPaymentImpact.
    destruct (Qle_bool L 0) eqn:H1.
    { apply Qle_bool_iff in H1. split; eauto. }
    apply Qle_bool_gt in H1.
    destruct (Qltb a 0) eqn:H2.
    { apply Qltb_lt in H2. split; eauto. }
    apply Qltb_ge in H2.
    destruct (Qle_bool t 0) eqn:H3.
    { apply Qle_bool_iff in H3. split; eauto. }
    apply Qle_bool_gt in H3.
    destruct (Qltb e 0) eqn:H4.
    { apply Qltb_lt in H4. split; eauto 6. }
    apply Qltb_ge in H4. cbv zeta.
    split.
    - intros [message Hm]. destruct (Qeq_bool e 0); discriminate Hm.
    - intros [H|[H|[H|H]]]; lra. }
  split; [exact Hiff|]. split; [|repeat split; intros; apply Hiff].
  - intros L a t e impact [message Hm]. rewrite Hm. discriminate.
  - left; lra.
  - right; left; reflexivity.
  - right; right; left; lra.
  - right; right; right; reflexivity.
Qed.

(** ** The fast path for a zero extra payment *)

(** C4. For every input passing validation, [calculateExtraPaymentImpact]
    with [extraMonthlyPayment == 0] returns the baseline:
    [newLoanTermMonths = termYears * 12], [monthsSaved = 0],
    [interestSaved = 0] and
    [totalInterestWithExtra = totalInterestStandard], the standard payment
    times the term minus the loan; the simulation loop takes no part in the
    result. *)
Theorem zero_extra_payment_baseline
        (Math_pow : Q -> Q -> Q)
        (loanAmount annualInterestRatePercent termYears extraMonthlyPayment : Q) :
  0 < loanAmount -> 0 <= annualInterestRatePercent -> 0 < termYears ->
  extraMonthlyPayment == 0 ->
  exists impact,
    calculateExtraPaymentImpact Math_pow loanAmount annualInterestRatePercent
                                termYears extraMonthlyPayment = Returned impact /\
    newLoanTermMonths impact = termYears * 12 /\
    monthsSaved impact = 0 /\
    interestSaved impact = 0 /\
    totalInterestWithExtra impact = totalInterestStandard impact /\
    totalInterestStandard impact =
      calculateMonthlyPayment Math_pow loanAmount annualInterestRatePercent termYears
      * (termYears * 12) - loanAmount.
Proof.
  intros HL Ha Ht He. eexists. split.
  - now apply calculateExtraPaymentImpact_baseline.
  - cbn. repeat split.
Qed.

(** The zero-extra-payment scenario of the test suite: 250000 at 4% over 15
    years. *)
Lemma zero_extra_payment_baseline_witness :
  exists impact,
    calculateExtraPaymentImpact pow_whole 250000 4 15 0 = Returned impact /\
    newLoanTermMonths impact = 15 * 12 /\
    monthsSaved impact = 0 /\
    interestSaved impact = 0 /\
    totalInterestWithExtra impact = totalInterestStandard impact /\
    totalInterestStandard impact =
      calculateMonthlyPayment pow_whole 250000 4 15 * (15 * 12) - 250000.
Proof.
  apply (zero_extra_payment_baseline pow_whole 250000 4 15 0);
    reflexivity || discriminate.
Defined.

(** ** The amortization schedule *)

Lemma nth_error_schedule L M a t i e :
  nth_error (generateAmortizationSchedule L M a t) i = Some e ->
  e = entry_at M (a / 100 / 12) L i.
Proof.
  rewrite generateAmortizationSchedule_entries. intros H.
  destruct (Nat.lt_ge_cases i (schedule_fuel (t * 12))) as [Hlt|Hge].
  - rewrite (nth_error_nth' _ (entry_at M (a / 100 / 12) L 0)) in H
      by now rewrite length_map, length_seq.
    rewrite (map_nth (entry_at M (a / 100 / 12) L)), seq_nth in H by exact Hlt.
    now injection H as <-.
  - rewrite (proj2 (nth_error_None _ _)) in H; [discriminate|].
    now rewrite length_map, length_seq.
Qed.

(** C10, as the code has it.  [generateAmortizationSchedule] returns a
    finished list of exactly [floor(termYears * 12)] entries (none when that
    is negative), numbered 1, 2, ... with no gaps; this is [termYears * 12]
    entries whenever [termYears * 12] is a whole number, in particular for a
    whole number of years.  The list is the result of a terminating run of
    the loop, and it depends only on the values of the arguments. *)
Theorem schedule_length_and_numbering
        (loanAmount monthlyPayment annualInterestRatePercent termYears : Q) :
  let schedule :=
    generateAmortizationSchedule loanAmount monthlyPayment
                                 annualInterestRatePercent termYears in
  length schedule = Z.to_nat (Qfloor (termYears * 12)) /\
  map paymentNumber schedule = map Z.of_nat (seq 1 (length schedule)) /\
  (forall N : Z, termYears * 12 == inject_Z N ->
                 Z.of_nat (length schedule) = Z.max 0 N) /\
  (exists final,
      while_run (schedule_cond (termYears * 12))
                (schedule_body monthlyPayment (annualInterestRatePercent / 100 / 12))
                (schedule_init loanAmount) final /\
      st_schedule final = schedule) /\
  (forall loanAmount' monthlyPayment' annualInterestRatePercent' termYears',
      loanAmount == loanAmount' -> monthlyPayment == monthlyPayment' ->
      annualInterestRatePercent == annualInterestRatePercent' ->
      termYears == termYears' ->
      Forall2 entry_equiv schedule
              (generateAmortizationSchedule loanAmount' monthlyPayment'
                 annualInterestRatePercent' termYears')).
Proof.
  cbv zeta.
  assert (Hlen : length (generateAmortizationSchedule loanAmount monthlyPayment
                           annualInterestRatePercent termYears)
                 = schedule_fuel (termYears * 12)).
  { now rewrite generateAmortizationSchedule_entries, length_map, length_seq. }
  split; [exact Hlen|]. split; [|split; [|split]].
  - rewrite Hlen, generateAmortizationSchedule_entries, map_map.
    rewrite <- seq_shift, map_map. apply map_ext. intros i.
    unfold entry_at, entry_from. cbn [paymentNumber]. lia.
  - intros N HN. rewrite Hlen. now apply schedule_fuel_whole.
  - eexists. split.
    + apply while_fuel_run. apply schedule_loop_exits.
    + reflexivity.
  - intros L' M' a' t' HL HM Ha Ht.
    rewrite !generateAmortizationSchedule_entries.
    assert (Hf : schedule_fuel (termYears * 12) = schedule_fuel (t' * 12)).
    { unfold schedule_fuel. f_equal. apply Qfloor_comp. now rewrite Ht. }
    rewrite <- Hf.
    induction (seq 0 (schedule_fuel (termYears * 12))) as [|i l IH];
      cbn [map]; constructor; auto.
    apply entry_at_equiv; auto. now rewrite Ha.
Qed.

(** A term of 30 years gives 360 entries. *)
Lemma schedule_length_and_numbering_witness :
  let schedule := generateAmortizationSchedule 200000 1135 5.5 30 in
  length schedule = 360%nat /\
  map paymentNumber schedule = map Z.of_nat (seq 1 360).
Proof.
  cbv zeta.
  destruct (schedule_length_and_numbering 200000 1135 5.5 30)
    as (Hlen & Hnum & _).
  assert (H360 : Z.to_nat (Qfloor (30 * 12)) = 360%nat) by reflexivity.
  rewrite H360 in Hlen. rewrite Hlen in Hnum. split; [exact Hlen | exact Hnum].
Defined.

(** C10 fails as stated for a term that is not a whole number of months: a
    term of 0.125 years ([termYears * 12 = 1.5]) gives one entry. *)
Lemma schedule_length_fractional_term :
  length (generateAmortizationSchedule 1000 1000 0 0.125) = 1%nat /\
  0.125 * 12 == 1.5 /\
  ~ inject_Z (Z.of_nat (length (generateAmortizationSchedule 1000 1000 0 0.125)))
    == 0.125 * 12.
Proof.
  split; [reflexivity|]. split; [reflexivity|].
  intros H. vm_compute in H. discriminate H.
Qed.

(** C2, as the code has it.  With [balance_0 = loanAmount] and [r] the
    monthly rate, entry [i] has [interest_i = balance_(i-1) * r] and
    [principal_i = monthlyPayment - interest_i]; the balance carried into the
    next period is [balance_i = balance_(i-1) - principal_i], not clamped;
    only the reported [remainingBalance] is [max(0, balance_i)].  Once the
    carried balance is 0 or less (with a rate and payment that are not
    negative) it stays so: every later entry reports [remainingBalance] 0,
    with an interest of 0 or less and a principal of at least
    [monthlyPayment]. *)
Theorem schedule_recurrence
        (loanAmount monthlyPayment annualInterestRatePercent termYears : Q) :
  let r := annualInterestRatePercent / 100 / 12 in
  let balance := balance_after monthlyPayment r loanAmount in
  let schedule :=
    generateAmortizationSchedule loanAmount monthlyPayment
                                 annualInterestRatePercent termYears in
  balance 0%nat = loanAmount /\
  (forall i entry,
      nth_error schedule i = Some entry ->
      paymentNumber entry = Z.of_nat (S i) /\
      payment entry = monthlyPayment /\
      interest entry = balance i * r /\
      principal entry = monthlyPayment - interest entry /\
      balance (S i) = balance i - principal entry /\
      remainingBalance entry = Math_max 0 (balance (S i))) /\
  (forall i entry,
      nth_error schedule i = Some entry ->
      0 <= r -> 0 <= monthlyPayment -> balance i <= 0 ->
      balance (S i) <= 0 /\
      remainingBalance entry == 0 /\
      interest entry <= 0 /\
      monthlyPayment <= principal entry).
Proof.
  cbv zeta. split; [reflexivity|]. split.
  - intros i entry H. apply nth_error_schedule in H. subst entry.
    unfold entry_at, entry_from.
    cbn [paymentNumber payment interest principal remainingBalance].
    repeat split. lia.
  - intros i entry H Hr HM Hb. apply nth_error_schedule in H. subst entry.
    unfold entry_at, entry_from.
    cbn [remainingBalance interest principal].
    set (r := annualInterestRatePercent / 100 / 12) in *.
    set (b := balance_after monthlyPayment r loanAmount i) in *.
    assert (Hnext : balance_after monthlyPayment r loanAmount (S i) <= 0).
    { rewrite balance_after_succ. fold b. nra. }
    split; [exact Hnext|]. split; [now apply Math_max_l|]. split; nra.
Qed.

(** The third entry of a loan of 100 at 12% over one year paid 60 a month. *)
Lemma schedule_recurrence_witness :
  exists entry,
    nth_error (generateAmortizationSchedule 100 60 12 1) 2 = Some entry /\
    interest entry = balance_after 60 (12 / 100 / 12) 100 2 * (12 / 100 / 12) /\
    principal entry = 60 - interest entry /\
    remainingBalance entry == 0 /\
    60 <= principal entry.
Proof.
  exists (entry_at 60 (12 / 100 / 12) 100 2).
  assert (H : nth_error (generateAmortizationSchedule 100 60 12 1) 2
              = Some (entry_at 60 (12 / 100 / 12) 100 2))
    by (rewrite generateAmortizationSchedule_entries; reflexivity).
  destruct (schedule_recurrence 100 60 12 1) as (_ & Hrec & Htail).
  destruct (Hrec _ _ H) as (_ & _ & Hi & Hp & _).
  destruct (Htail _ _ H) as (_ & Hrb & _ & HM);
    [discriminate | discriminate | vm_compute; discriminate |].
  repeat split; assumption.
Defined.

(** C2 fails as stated: the carried balance is not clamped.  For a loan of
    100 at 12% over one year paid 60 a month, the balance is 41 after the
    first payment and negative after the second; the third entry then has a
    negative interest and a principal above 60, where the clamped recurrence
    gives interest 0. *)
Lemma schedule_carries_negative_balance :
  exists entry,
    nth_error (generateAmortizationSchedule 100 60 12 1) 2 = Some entry /\
    spec_clamped_balance 60 (12 / 100 / 12) 100 2 == 0 /\
    ~ interest entry == spec_clamped_balance 60 (12 / 100 / 12) 100 2 * (12 / 100 / 12) /\
    interest entry < 0 /\
    60 < principal entry.
Proof.
  exists (entry_at 60 (12 / 100 / 12) 100 2). split.
  - rewrite generateAmortizationSchedule_entries. reflexivity.
  - split; [reflexivity|]. split; [|split; reflexivity].
    intros H. vm_compute in H. discriminate H.
Qed.

(** ** The extra-payment simulation *)

(** C6, as the code has it.  When the payment of a simulated period takes
    the balance below 0 (by the overshoot [-after]), the interest on the
    overshoot, [after * monthlyRate], is added back (so subtracted) to
    [totalInterestWithExtra]: that period contributes
    [monthlyRate * (balance at the start of the period - overshoot)], which
    for a positive rate is less than the interest on the balance at the start
    of the period.  The balance is then exactly 0 and the loop stops: the
    period is the last one. *)
Theorem overshoot_adjustment
        (monthlyRate standardMonthlyPayment extraMonthlyPayment loanTermMonths : Q)
        (s : SimState) :
  let after :=
    sim_balance s
    - (standardMonthlyPayment + extraMonthlyPayment - sim_balance s * monthlyRate) in
  let s' := sim_body monthlyRate standardMonthlyPayment extraMonthlyPayment s in
  after < 0 ->
  sim_balance s' = 0 /\
  sim_totalInterestWithExtra s' =
    sim_totalInterestWithExtra s + sim_balance s * monthlyRate + after * monthlyRate /\
  sim_totalInterestWithExtra s' - sim_totalInterestWithExtra s
    == (sim_balance s - (- after)) * monthlyRate /\
  (0 < monthlyRate ->
   sim_totalInterestWithExtra s' - sim_totalInterestWithExtra s
   < sim_balance s * monthlyRate) /\
  sim_cond loanTermMonths s' = false.
Proof.
  cbv zeta. intros Hneg.
  destruct (sim_body_cases monthlyRate standardMonthlyPayment
                           extraMonthlyPayment s) as [[_ ->]|[Hpos _]]; [|lra].
  cbn [sim_balance sim_totalInterestWithExtra].
  split; [reflexivity|]. split; [reflexivity|]. split; [ring|]. split.
  - intros Hr. nra.
  - apply sim_cond_stop. left. cbn. lra.
Qed.

(** A one-month loan of 1000 at 12% (payment 1010) with 100 extra: the
    payment overshoots by 100, and the period contributes 9, not 10. *)
Lemma overshoot_adjustment_witness :
  let s := sim_init 1000 in
  let s' := sim_body (1 # 100) 1010 100 s in
  1000 - (1010 + 100 - 1000 * (1 # 100)) < 0 /\
  sim_balance s' = 0 /\
  sim_totalInterestWithExtra s' - sim_totalInterestWithExtra s
    == (1000 - 100) * (1 # 100) /\
  sim_cond 1 s' = false.
Proof.
  cbv zeta.
  assert (H : 1000 - (1010 + 100 - 1000 * (1 # 100)) < 0) by reflexivity.
  destruct (overshoot_adjustment (1 # 100) 1010 100 1 (sim_init 1000) H)
    as (Hb & _ & Hi & _ & Hc).
  split; [exact H|]. split; [exact Hb|]. split; [|exact Hc].
  rewrite Hi. reflexivity.
Defined.

(** C6 fails as stated: the last period does not contribute the interest on
    the balance at its start.  A loan of 1200 at 12% over one year with 1200
    extra a month is paid off by the first payment; the interest on the
    starting balance is 12, and [totalInterestWithExtra] is less. *)
Lemma overshoot_interest_not_on_start_balance :
  exists impact,
    calculateExtraPaymentImpact pow_whole 1200 12 1 1200 = Returned impact /\
    newLoanTermMonths impact == 1 /\
    1200 * (12 / 100 / 12) == 12 /\
    ~ totalInterestWithExtra impact == 1200 * (12 / 100 / 12) /\
    totalInterestWithExtra impact < 12.
Proof.
  eexists. split.
  - apply calculateExtraPaymentImpact_simulated; reflexivity || discriminate.
  - cbn [newLoanTermMonths totalInterestWithExtra].
    split; [vm_compute; reflexivity|]. split; [reflexivity|].
    split; [|vm_compute; reflexivity].
    intros H. vm_compute in H. discriminate H.
Qed.





(** ** The balance and the principal over a schedule *)


Lemma whole_years_months (termYears : Q) (years : Z) :
  termYears == inject_Z years -> (0 < years)%Z ->
  termYears * 12 == inject_Z (Z.of_nat (Z.to_nat (years * 12))) /\
  (0 < Z.to_nat (years * 12))%nat.
Proof.
  intros Ht Hy. split; [|lia].
  rewrite Z2Nat.id by lia. rewrite inject_Z_mult, Ht. reflexivity.
Qed.










(** ** The effect of an extra payment *)


(** On the numbers the program computes with, rounding can cost a month: a
    loan of 1000 at 0% over 3 months with an extra payment of [2^-67] a
    month takes 4 months, because three rounded payments of [1000 / 3] leave
    a positive balance; [monthsSaved] is -1. *)
Lemma extra_payment_rounding_adds_a_month :
  exists impact,
    Binary64.calculateExtraPaymentImpact Binary64.pow_not_called
      1000 0 0.25 0x1p-67 = Returned impact /\
    Binary64.sim_cond (0.25 * 12)
      (Binary64.sim_run Binary64.pow_not_called 1000 0 0.25 0x1p-67) = false /\
    Binary64.newLoanTermMonths impact = 4%float /\
    Binary64.monthsSaved impact = (-1)%float.
Proof.
  eexists. split; [vm_compute; reflexivity|].
  cbn [Binary64.newLoanTermMonths Binary64.monthsSaved].
  repeat split; vm_compute; reflexivity.
Qed.





(** * Further properties of the schedule *)

Lemma schedule_Forall (P : PaymentScheduleEntry -> Prop) L M a t :
  (forall i, P (entry_at M (a / 100 / 12) L i)) ->
  Forall P (generateAmortizationSchedule L M a t).
Proof.
  intros H. rewrite generateAmortizationSchedule_entries.
  apply Forall_forall. intros e He. apply in_map_iff in He.
  destruct He as (i & <- & _). apply H.
Qed.

(** X1. In every entry of every schedule, whatever the arguments, the
    principal and the interest add up to the payment, which is the
    [monthlyPayment] given. *)
Theorem schedule_entries_split_payment
        (loanAmount monthlyPayment annualInterestRatePercent termYears : Q) :
  Forall (fun entry =>
            principal entry + interest entry == payment entry /\
            payment entry = monthlyPayment)
         (generateAmortizationSchedule loanAmount monthlyPayment
            annualInterestRatePercent termYears).
Proof.
  apply schedule_Forall. intros i. unfold entry_at, entry_from.
  cbn [principal interest payment]. split; [ring | reflexivity].
Qed.

(** X2. No entry of any schedule reports a negative [remainingBalance],
    whatever the arguments (a negative loan or an oversized payment
    included). *)
Theorem schedule_balance_never_negative
        (loanAmount monthlyPayment annualInterestRatePercent termYears : Q) :
  Forall (fun entry => 0 <= remainingBalance entry)
         (generateAmortizationSchedule loanAmount monthlyPayment
            annualInterestRatePercent termYears).
Proof.
  apply schedule_Forall. intros i. unfold entry_at, entry_from.
  cbn [remainingBalance]. unfold Math_max. apply Q.le_max_l.
Qed.

(** X3. A term of less than one month (zero and negative terms included)
    is not rejected: the schedule is empty. *)
Theorem schedule_empty_for_short_term
        (loanAmount monthlyPayment annualInterestRatePercent termYears : Q) :
  termYears * 12 < 1 ->
  generateAmortizationSchedule loanAmount monthlyPayment
    annualInterestRatePercent termYears = [].
Proof.
  intros Hshort. rewrite generateAmortizationSchedule_entries.
  assert (Hfloor : (Qfloor (termYears * 12) <= 0)%Z).
  { assert (H : (Qfloor (termYears * 12) < 1)%Z).
    { rewrite Zlt_Qlt. eapply Qle_lt_trans; [apply Qfloor_le | exact Hshort]. }
    lia. }
  unfold schedule_fuel.
  destruct (Z.to_nat (Qfloor (termYears * 12))) eqn:E; [reflexivity | lia].
Qed.

Lemma schedule_empty_for_short_term_witness :
  generateAmortizationSchedule 100000 500 4 0 = [] /\
  generateAmortizationSchedule 100000 500 4 (-5) = [] /\
  generateAmortizationSchedule 100000 500 4 0.05 = [].
Proof.
  split; [|split];
    apply schedule_empty_for_short_term; reflexivity.
Defined.

(** X4. A payment that does not cover the first month's interest never
    reduces the loan: with a rate that is not negative and
    [monthlyPayment <= loanAmount * r], every entry has a principal of 0 or
    less and reports a [remainingBalance] of at least [loanAmount]. *)
Theorem schedule_negative_amortization
        (loanAmount monthlyPayment annualInterestRatePercent termYears : Q) :
  0 <= annualInterestRatePercent ->
  monthlyPayment <= loanAmount * (annualInterestRatePercent / 100 / 12) ->
  Forall (fun entry =>
            principal entry <= 0 /\ loanAmount <= remainingBalance entry)
         (generateAmortizationSchedule loanAmount monthlyPayment
            annualInterestRatePercent termYears).
Proof.
  intros Ha Hlow. pose proof (monthlyRate_nonneg _ Ha) as Hr.
  set (r := annualInterestRatePercent / 100 / 12) in *.
  assert (Hbal : forall k, loanAmount <= balance_after monthlyPayment r loanAmount k).
  { induction k as [|k IH]; [cbn; lra|].
    rewrite balance_after_succ. nra. }
  apply schedule_Forall. fold r. intros i. unfold entry_at, entry_from.
  cbn [principal remainingBalance]. split.
  - specialize (Hbal i). nra.
  - eapply Qle_trans; [apply (Hbal (S i))|]. unfold Math_max. apply Q.le_max_r.
Qed.

(** An interest-only payment: 100000 at 6% paid 500 a month. *)
Lemma schedule_negative_amortization_witness :
  Forall (fun entry => principal entry <= 0 /\ 100000 <= remainingBalance entry)
         (generateAmortizationSchedule 100000 500 6 30).
Proof.
  apply schedule_negative_amortization; discriminate.
Defined.

(** * Totals of a schedule *)

Lemma whole_term_entries L M a t (n : nat) :
  t * 12 == inject_Z (Z.of_nat n) ->
  generateAmortizationSchedule L M a t
  = map (entry_at M (a / 100 / 12) L) (seq 0 n).
Proof.
  intros Hn. rewrite generateAmortizationSchedule_entries. f_equal. f_equal.
  apply Nat2Z.inj. rewrite (schedule_fuel_whole _ _ Hn). lia.
Qed.

Lemma whole_term_nth L M a t (n : nat) i e :
  t * 12 == inject_Z (Z.of_nat n) ->
  nth_error (generateAmortizationSchedule L M a t) i = Some e ->
  (i < n)%nat /\ e = entry_at M (a / 100 / 12) L i.
Proof.
  intros Hn He. split; [|now apply nth_error_schedule in He].
  assert (Hlt : (i < length (generateAmortizationSchedule L M a t))%nat)
    by (apply nth_error_Some; congruence).
  now rewrite (whole_term_entries _ _ _ _ n Hn), length_map, length_seq in Hlt.
Qed.





(** X9. At a rate of 0 the loan costs nothing, for any term above 0 (whole
    months or not): the payments total [loanAmount] and the total interest is
    0. *)
Theorem zero_rate_costs_nothing
        (Math_pow : Q -> Q -> Q)
        (loanAmount annualInterestRatePercent termYears : Q) :
  annualInterestRatePercent == 0 -> 0 < termYears ->
  let monthlyPayment :=
    calculateMonthlyPayment Math_pow loanAmount annualInterestRatePercent termYears in
  calculateTotalPayment monthlyPayment termYears == loanAmount /\
  calculateTotalInterest (calculateTotalPayment monthlyPayment termYears)
                         loanAmount == 0.
Proof.
  intros Ha Ht. cbv zeta.
  assert (Hr : Qeq_bool (annualInterestRatePercent / 100 / 12) 0 = true).
  { apply Qeq_bool_iff. rewrite Ha. reflexivity. }
  unfold calculateTotalInterest, calculateTotalPayment, calculateMonthlyPayment.
  cbv zeta. rewrite Hr. split; field; lra.
Qed.

Lemma zero_rate_costs_nothing_witness :
  let monthlyPayment := calculateMonthlyPayment pow_whole 150000 0 15 in
  calculateTotalPayment monthlyPayment 15 == 150000 /\
  calculateTotalInterest (calculateTotalPayment monthlyPayment 15) 150000 == 0.
Proof.
  apply (zero_rate_costs_nothing pow_whole 150000 0 15); reflexivity.
Defined.

(** * Further properties of the extra-payment simulation *)

Lemma interest_between_shift P r b k :
  forall j,
    interest_between P r (b - (P - b * r)) j k
    = interest_between P r b (S j) k.
Proof.
  induction k as [|k IH]; intros j; cbn [interest_between]; [reflexivity|].
  now rewrite IH, balance_after_shift.
Qed.

(** What a run of the loop from state [s] computes, in terms of the
    unclamped balance under the total payment: it ran [k] iterations, the
    balance was positive before each of them, and it ended either with that
    balance (never clamped) or with 0 after a final overshoot, whose interest
    was taken back. *)
Lemma sim_loop_trace n r M e :
  forall fuel s,
    let final := while_fuel (sim_cond n) (sim_body r M e) fuel s in
    exists k : nat,
      sim_month final = (sim_month s + Z.of_nat k)%Z /\
      (forall i, (i < k)%nat -> 0 < balance_after (M + e) r (sim_balance s) i) /\
      ((sim_balance final = balance_after (M + e) r (sim_balance s) k /\
        (k = 0%nat \/ 0 <= balance_after (M + e) r (sim_balance s) k) /\
        sim_totalInterestWithExtra final
        == sim_totalInterestWithExtra s
           + interest_between (M + e) r (sim_balance s) 0 k)
       \/
       (sim_balance final = 0 /\
        balance_after (M + e) r (sim_balance s) k < 0 /\
        sim_totalInterestWithExtra final
        == sim_totalInterestWithExtra s
           + interest_between (M + e) r (sim_balance s) 0 k
           + balance_after (M + e) r (sim_balance s) k * r)).
Proof.
  assert (Hstay : forall s,
             exists k : nat,
               sim_month s = (sim_month s + Z.of_nat k)%Z /\
               (forall i, (i < k)%nat ->
                          0 < balance_after (M + e) r (sim_balance s) i) /\
               ((sim_balance s = balance_after (M + e) r (sim_balance s) k /\
                 (k = 0%nat \/ 0 <= balance_after (M + e) r (sim_balance s) k) /\
                 sim_totalInterestWithExtra s
                 == sim_totalInterestWithExtra s
                    + interest_between (M + e) r (sim_balance s) 0 k)
                \/
                (sim_balance s = 0 /\
                 balance_after (M + e) r (sim_balance s) k < 0 /\
                 sim_totalInterestWithExtra s
                 == sim_totalInterestWithExtra s
                    + interest_between (M + e) r (sim_balance s) 0 k
                    + balance_after (M + e) r (sim_balance s) k * r))).
  { intros s. exists 0%nat. split; [cbn; lia|]. split; [intros i Hi; lia|].
    left. cbn [balance_after interest_between].
    split; [reflexivity|]. split; [now left | ring]. }
  induction fuel as [|fuel IH]; intros s; cbv zeta; cbn [while_fuel];
    [apply Hstay|].
  destruct (sim_cond n s) eqn:Hc; [|apply Hstay].
  apply sim_cond_split in Hc. destruct Hc as [Hb _].
  destruct (sim_body_cases r M e s) as [[Hneg ->]|[Hpos ->]].
  - rewrite sim_stops_at_zero by (cbn; lra).
    exists 1%nat. cbn [sim_month sim_balance sim_totalInterestWithExtra].
    split; [lia|]. split.
    + intros i Hi. assert (i = 0)%nat by lia. subst i. exact Hb.
    + right. cbn [balance_after interest_between]. cbv zeta.
      split; [reflexivity|]. split; [exact Hneg | ring].
  - set (after := sim_balance s - (M + e - sim_balance s * r)) in *.
    specialize (IH {| sim_balance := after;
                      sim_month := sim_month s + 1;
                      sim_totalInterestWithExtra :=
                        sim_totalInterestWithExtra s + sim_balance s * r |}).
    cbv zeta in IH. cbn [sim_balance sim_month sim_totalInterestWithExtra] in IH.
    destruct IH as (k & Hm & Hbefore & Hend). subst after.
    exists (S k). split; [lia|]. split.
    + intros [|i] Hi; [exact Hb|].
      rewrite <- balance_after_shift.
      apply Hbefore. lia.
    + rewrite !balance_after_shift, !interest_between_shift in Hend.
      cbn [interest_between]. change (balance_after (M + e) r (sim_balance s) 0)
        with (sim_balance s).
      destruct Hend as [(Hbal & Hk & Htot)|(Hbal & Hk & Htot)].
      * left. split; [exact Hbal|]. split.
        -- right. destruct Hk as [->|Hk]; [|exact Hk].
           rewrite <- balance_after_shift. cbn [balance_after]. exact Hpos.
        -- rewrite Htot. ring.
      * right. split; [exact Hbal|]. split; [exact Hk|]. rewrite Htot. ring.
Qed.

(** A larger payment leaves a smaller balance. *)
Lemma balance_after_antitone_payment P P' r b k :
  0 <= r -> P <= P' ->
  balance_after P' r b k <= balance_after P r b k.
Proof.
  intros Hr HP. induction k as [|k IH]; [cbn; lra|].
  rewrite !balance_after_succ. nra.
Qed.

(** X10. The returned figures are consistent, on the fast path and on the
    simulated one: for every input passing validation,
    [newLoanTermMonths + monthsSaved] is [termYears * 12],
    [totalInterestWithExtra + interestSaved] is [totalInterestStandard], and
    [totalInterestStandard] is what [calculateTotalInterest] gives for the
    standard payment, whatever the extra payment. *)
Theorem extra_payment_figures_consistent
        (Math_pow : Q -> Q -> Q)
        (loanAmount annualInterestRatePercent termYears extraMonthlyPayment : Q) :
  0 < loanAmount -> 0 <= annualInterestRatePercent -> 0 < termYears ->
  0 <= extraMonthlyPayment ->
  exists impact,
    calculateExtraPaymentImpact Math_pow loanAmount annualInterestRatePercent
                                termYears extraMonthlyPayment = Returned impact /\
    newLoanTermMonths impact + monthsSaved impact == termYears * 12 /\
    totalInterestWithExtra impact + interestSaved impact
    == totalInterestStandard impact /\
    totalInterestStandard impact
    == calculateTotalInterest
         (calculateTotalPayment
            (calculateMonthlyPayment Math_pow loanAmount
               annualInterestRatePercent termYears) termYears)
         loanAmount.
Proof.
  intros HL Ha Ht He.
  unfold calculateTotalInterest, calculateTotalPayment.
  destruct (Qeq_bool extraMonthlyPayment 0) eqn:E.
  - apply Qeq_bool_iff in E. eexists. split.
    + now apply calculateExtraPaymentImpact_baseline.
    + cbn [newLoanTermMonths monthsSaved interestSaved totalInterestStandard
             totalInterestWithExtra]. repeat split; ring.
  - apply Qeq_bool_false in E. eexists. split.
    + apply calculateExtraPaymentImpact_simulated; auto. lra.
    + cbn [newLoanTermMonths monthsSaved interestSaved totalInterestStandard
             totalInterestWithExtra]. repeat split; ring.
Qed.

Lemma extra_payment_figures_consistent_witness :
  exists impact,
    calculateExtraPaymentImpact pow_whole 300000 4.5 30 200 = Returned impact /\
    newLoanTermMonths impact + monthsSaved impact == 30 * 12 /\
    totalInterestWithExtra impact + interestSaved impact
    == totalInterestStandard impact /\
    totalInterestStandard impact
    == calculateTotalInterest
         (calculateTotalPayment
            (calculateMonthlyPayment pow_whole 300000 4.5 30) 30)
         300000.
Proof.
  apply (extra_payment_figures_consistent pow_whole 300000 4.5 30 200);
    reflexivity || discriminate.
Defined.

(** The loop of [calculateExtraPaymentImpact] stops by its own condition. *)
Lemma sim_final_exits (n r M e L : Q) :
  0 < n ->
  sim_cond n (while_fuel (sim_cond n) (sim_body r M e) (sim_fuel n) (sim_init L))
  = false.
Proof.
  intros Hn. apply sim_loop_exits. unfold sim_fuel. cbn [sim_init sim_month].
  assert (0 <= Qceiling (n * 2))%Z.
  { pose proof (Qle_ceiling (n * 2)). rewrite Zle_Qle.
    change (inject_Z 0) with 0. lra. }
  lia.
Qed.

(** X11. Paying more never takes longer: for inputs passing validation and
    two positive extra payments, the larger one gives a [newLoanTermMonths]
    that is not greater. *)
Theorem larger_extra_payment_not_slower
        (Math_pow : Q -> Q -> Q)
        (loanAmount annualInterestRatePercent termYears smaller larger : Q) :
  0 < loanAmount -> 0 <= annualInterestRatePercent -> 0 < termYears ->
  0 < smaller -> smaller <= larger ->
  exists impact impact',
    calculateExtraPaymentImpact Math_pow loanAmount annualInterestRatePercent
                                termYears smaller = Returned impact /\
    calculateExtraPaymentImpact Math_pow loanAmount annualInterestRatePercent
                                termYears larger = Returned impact' /\
    newLoanTermMonths impact' <= newLoanTermMonths impact.
Proof.
  intros HL Ha Ht Hs Hle.
  pose proof (monthlyRate_nonneg _ Ha) as Hr.
  assert (Hn : 0 < termYears * 12) by lra.
  do 2 eexists. split; [now apply calculateExtraPaymentImpact_simulated|].
  split; [apply calculateExtraPaymentImpact_simulated; auto; lra|].
  cbn [newLoanTermMonths]. rewrite <- Zle_Qle.
  set (M := calculateMonthlyPayment Math_pow loanAmount
              annualInterestRatePercent termYears).
  set (r := annualInterestRatePercent / 100 / 12) in *.
  set (n := termYears * 12) in *.
  pose proof (sim_final_exits n r M smaller loanAmount Hn) as Hexit.
  destruct (sim_loop_trace n r M smaller (sim_fuel n) (sim_init loanAmount))
    as (k & Hm & _ & Hend).
  cbv zeta in Hend. cbn [sim_init sim_balance sim_month] in Hm, Hend.
  set (final := while_fuel (sim_cond n) (sim_body r M smaller)
                           (sim_fuel n) (sim_init loanAmount)) in *.
  apply sim_cond_stop in Hexit. destruct Hexit as [Hzero|Hcap].
  - assert (Hcross : balance_after (M + smaller) r loanAmount k <= 0).
    { destruct Hend as [(Hbal & _)|(_ & Hneg & _)]; [|lra].
      rewrite <- Hbal. exact Hzero. }
    pose proof (balance_after_antitone_payment (M + smaller) (M + larger) r
                  loanAmount k Hr) as Hmono.
    pose proof (sim_loop_crossing n r M larger k (sim_fuel n) (sim_init loanAmount))
      as Hlarger.
    cbn [sim_init sim_balance sim_month] in Hlarger.
    rewrite Hm. apply Hlarger. lra.
  - pose proof (sim_loop_month_range n r M larger (sim_fuel n) (sim_init loanAmount))
      as Hrange.
    cbn [sim_init sim_month] in Hrange.
    assert (Hceil : (Qceiling (n * 2) <= sim_month final)%Z).
    { rewrite <- (Qceiling_Z (sim_month final)). now apply Qceiling_resp_le. }
    lia.
Qed.

(** 200 and 500 extra a month on 300000 at 4.5% over 30 years. *)
Lemma larger_extra_payment_not_slower_witness :
  exists impact impact',
    calculateExtraPaymentImpact pow_whole 300000 4.5 30 200 = Returned impact /\
    calculateExtraPaymentImpact pow_whole 300000 4.5 30 500 = Returned impact' /\
    newLoanTermMonths impact' <= newLoanTermMonths impact.
Proof.
  apply (larger_extra_payment_not_slower pow_whole 300000 4.5 30 200 500);
    reflexivity || discriminate.
Defined.






(** * The command-line interface *)

Lemma js_lt_finite x y : js_lt (Finite x) (Finite y) = true <-> x < y.
Proof. apply Qltb_lt. Qed.

Lemma js_ge_finite x y : js_ge (Finite x) (Finite y) = true <-> y <= x.
Proof. apply Qle_bool_iff. Qed.

Lemma validateDownPayment_finite value price :
  (if js_lt (Finite value) (Finite 0)
   then Rejected "Please enter a non-negative number"
   else if js_ge (Finite value) (Finite price)
        then Rejected "Down payment cannot exceed the property price"
        else Accepted) = Accepted
  <-> 0 <= value /\ value < price.
Proof.
  cbn [js_lt js_ge]. destruct (Qltb value 0) eqn:E1.
  - apply Qltb_lt in E1. split; [discriminate | lra].
  - apply Qltb_ge in E1. destruct (Qle_bool price value) eqn:E2.
    + apply Qle_bool_iff in E2. split; [discriminate | lra].
    + apply Qle_bool_gt in E2. split; auto.
Qed.

(** X15. The down-payment validator lets NaN through, whatever the answers,
    while the three other validators reject it.  A finite value is accepted
    exactly when it is 0 or more and strictly below the property price it
    finds, when that is finite: the one of the answers object, else the one
    nested under [answers.answers]; a down payment equal to the price is
    rejected.  Against a price that is NaN every finite value of 0 or more
    is accepted.  When it finds no price it falls back to
    [Number.MAX_SAFE_INTEGER], so every finite value from 0 up to that is
    accepted. *)
Theorem validateDownPayment_accepts :
  (forall answers, validateDownPayment NotANumber answers = Accepted) /\
  (validatePropertyPrice NotANumber <> Accepted /\
   validateInterestRate NotANumber <> Accepted /\
   validateLoanTerm NotANumber <> Accepted) /\
  (forall value price nested,
      validateDownPayment (Finite value)
        (AnswersObject (Some (Finite price)) nested) = Accepted
      <-> 0 <= value /\ value < price) /\
  (forall value price,
      validateDownPayment (Finite value)
        (AnswersObject None (Some (Some (Finite price)))) = Accepted
      <-> 0 <= value /\ value < price) /\
  (forall value nested,
      validateDownPayment (Finite value)
        (AnswersObject (Some NotANumber) nested) = Accepted
      <-> 0 <= value) /\
  (forall value answers,
      answers = NotAnObject \/ answers = AnswersObject None None \/
      answers = AnswersObject None (Some None) ->
      (validateDownPayment (Finite value) answers = Accepted
       <-> 0 <= value /\ value < 9007199254740991)).
Proof.
  split; [|split; [|split; [|split; [|split]]]].
  - intros answers. unfold validateDownPayment. cbn [js_lt].
    destruct answers as [|[price|] [[price'|]|]]; cbv zeta;
      try destruct price; try destruct price'; reflexivity.
  - repeat split; discriminate.
  - intros value price nested. apply validateDownPayment_finite.
  - intros value price. apply validateDownPayment_finite.
  - intros value nested. unfold validateDownPayment. cbn [js_lt js_ge].
    destruct (Qltb value 0) eqn:E1.
    + apply Qltb_lt in E1. split; [discriminate | lra].
    + apply Qltb_ge in E1. split; auto.
  - intros value answers [->|[->| ->]]; apply validateDownPayment_finite.
Qed.



(** ** The display of the schedule *)

Lemma skipn_nth_cons {A : Type} (l : list A) :
  forall c x, nth_error l c = Some x -> skipn c l = x :: skipn (S c) l.
Proof.
  induction l as [|y l IH]; intros [|c] x H; cbn in *; try discriminate.
  - now injection H as ->.
  - now apply IH.
Qed.

Lemma In_firstn {A : Type} (x : A) :
  forall k l, In x (firstn k l) -> In x l.
Proof.
  induction k as [|k IH]; intros [|y l] H; cbn in *; try contradiction.
  destruct H as [->|H]; [now left | right; now apply IH].
Qed.

Lemma firstn_min_length {A : Type} (l : list A) k :
  firstn (Nat.min k (length l)) l = firstn k l.
Proof.
  destruct (Nat.le_ge_cases k (length l)) as [H|H].
  - now rewrite Nat.min_l.
  - rewrite Nat.min_r by exact H. now rewrite !firstn_all2 by lia.
Qed.

Lemma array_get_in_range {A : Type} (l : list A) (index : Z) :
  (0 <= index < Z.of_nat (length l))%Z ->
  exists x, array_get l index = Some x /\ nth_error l (Z.to_nat index) = Some x.
Proof.
  intros H. unfold array_get.
  destruct (index <? 0)%Z eqn:E; [apply Z.ltb_lt in E; lia|].
  destruct (nth_error l (Z.to_nat index)) as [x|] eqn:Hx; [eauto|].
  apply nth_error_None in Hx. lia.
Qed.

Lemma display_loop_stopped (cond : DisplayState -> bool) body fuel s :
  cond s = false -> while_fuel cond body fuel s = s.
Proof. intros H. destruct fuel; cbn [while_fuel]; [|rewrite H]; reflexivity. Qed.

(** The first loop prints the first 12 entries, or all of them when there
    are fewer. *)
Lemma first_rows_loop schedule :
  forall fuel c lines,
    (c <= Nat.min 12 (length schedule))%nat ->
    (Nat.min 12 (length schedule) - c <= fuel)%nat ->
    while_fuel (first_rows_cond schedule) (first_rows_body schedule) fuel
               {| ds_counter := Z.of_nat c; ds_lines := lines; ds_flow := Running |}
    = {| ds_counter := Z.of_nat (Nat.min 12 (length schedule));
         ds_lines :=
           lines ++ map Row (firstn (Nat.min 12 (length schedule) - c)
                                    (skipn c schedule));
         ds_flow := Running |}.
Proof.
  set (m := Nat.min 12 (length schedule)).
  assert (Hm : Z.min 12 (Z.of_nat (length schedule)) = Z.of_nat m)
    by (unfold m; lia).
  induction fuel as [|fuel IH]; intros c lines Hc Hfuel.
  - replace (m - c)%nat with 0%nat by lia. replace c with m by lia.
    cbn. now rewrite app_nil_r.
  - cbn [while_fuel]. unfold first_rows_cond at 1.
    cbn [ds_flow ds_counter is_running andb]. rewrite Hm.
    destruct (Z.of_nat c <? Z.of_nat m)%Z eqn:E.
    + apply Z.ltb_lt in E.
      destruct (array_get_in_range schedule (Z.of_nat c)) as (x & Hget & Hnth);
        [unfold m in *; lia|].
      rewrite Nat2Z.id in Hnth.
      unfold first_rows_body. cbn [ds_counter ds_lines ds_flow]. rewrite Hget.
      replace (Z.of_nat c + 1)%Z with (Z.of_nat (S c)) by lia.
      rewrite IH by lia.
      replace (m - c)%nat with (S (m - S c)) by lia.
      rewrite (skipn_nth_cons _ _ _ Hnth). cbn [firstn map].
      now rewrite <- app_assoc.
    + apply Z.ltb_ge in E. replace (m - c)%nat with 0%nat by lia.
      replace c with m by lia. cbn. now rewrite app_nil_r.
Qed.

Lemma first_rows_result schedule :
  while_fuel (first_rows_cond schedule) (first_rows_body schedule) 12
             {| ds_counter := 0; ds_lines := []; ds_flow := Running |}
  = {| ds_counter := Z.of_nat (Nat.min 12 (length schedule));
       ds_lines := map Row (firstn 12 schedule);
       ds_flow := Running |}.
Proof.
  change 0%Z with (Z.of_nat 0).
  rewrite (first_rows_loop schedule 12 0 []) by lia.
  rewrite Nat.sub_0_r, firstn_min_length. reflexivity.
Qed.

Lemma first_rows_exits schedule :
  first_rows_cond schedule
    (while_fuel (first_rows_cond schedule) (first_rows_body schedule) 12
                {| ds_counter := 0; ds_lines := []; ds_flow := Running |})
  = false.
Proof.
  rewrite first_rows_result. unfold first_rows_cond.
  cbn [ds_flow ds_counter is_running andb]. apply Z.ltb_ge. lia.
Qed.

Lemma year_step_positive loanTerm : 1 < loanTerm -> (1 <= Qceiling (loanTerm / 10))%Z.
Proof.
  intros H. assert (0 < Qceiling (loanTerm / 10))%Z; [|lia].
  rewrite Zlt_Qlt. apply Qlt_le_trans with (loanTerm / 10); [|apply Qle_ceiling].
  change (inject_Z 0) with 0. unfold Qdiv.
  apply Qmult_lt_0_compat; [lra | reflexivity].
Qed.

(** One iteration of the year loop from a running state with [year >= 2]:
    it breaks, or prints an entry of the schedule and moves on; it never
    reads outside the array. *)
Lemma year_rows_body_cases schedule loanTerm s :
  1 < loanTerm -> (2 <= ds_counter s)%Z -> ds_flow s = Running ->
  year_rows_body schedule loanTerm s
  = {| ds_counter := ds_counter s; ds_lines := ds_lines s; ds_flow := Broken |}
  \/
  exists payment,
    (ds_counter s * 12 - 1 < Z.of_nat (length schedule))%Z /\
    nth_error schedule (Z.to_nat (ds_counter s * 12 - 1)) = Some payment /\
    year_rows_body schedule loanTerm s
    = {| ds_counter := ds_counter s + Qceiling (loanTerm / 10);
         ds_lines := ds_lines s ++ [Row payment];
         ds_flow := Running |}.
Proof.
  intros Hterm Hyear Hflow. unfold year_rows_body. cbv zeta.
  destruct (Qltb loanTerm (inject_Z (ds_counter s))); [now left|].
  destruct (Z.of_nat (length schedule) <=? ds_counter s * 12 - 1)%Z eqn:E;
    [now left|].
  apply Z.leb_gt in E. right.
  destruct (array_get_in_range schedule (ds_counter s * 12 - 1))
    as (payment & Hget & Hnth); [lia|].
  exists payment. rewrite Hget, Hflow. auto.
Qed.

Lemma year_rows_safe schedule loanTerm :
  1 < loanTerm ->
  forall fuel s,
    (2 <= ds_counter s)%Z -> ds_flow s <> Failed ->
    Forall (line_of schedule) (ds_lines s) ->
    let final := while_fuel (year_rows_cond loanTerm)
                            (year_rows_body schedule loanTerm) fuel s in
    ds_flow final <> Failed /\
    Forall (line_of schedule) (ds_lines final) /\
    exists more, ds_lines final = ds_lines s ++ more.
Proof.
  intros Hterm. pose proof (year_step_positive loanTerm Hterm) as Hstep.
  induction fuel as [|fuel IH]; intros s Hyear Hflow Hlines; cbv zeta;
    cbn [while_fuel].
  - split; [exact Hflow|]. split; [exact Hlines|]. exists []. now rewrite app_nil_r.
  - destruct (year_rows_cond loanTerm s) eqn:Hc.
    + assert (Hrun : ds_flow s = Running).
      { unfold year_rows_cond in Hc. destruct (ds_flow s); cbn in Hc;
          congruence. }
      destruct (year_rows_body_cases schedule loanTerm s Hterm Hyear Hrun)
        as [->|(payment & Hidx & Hnth & ->)].
      * rewrite display_loop_stopped by reflexivity.
        cbn [ds_flow ds_lines]. split; [discriminate|]. split; [exact Hlines|].
        exists []. now rewrite app_nil_r.
      * specialize (IH {| ds_counter := ds_counter s + Qceiling (loanTerm / 10);
                          ds_lines := ds_lines s ++ [Row payment];
                          ds_flow := Running |}).
        cbv zeta in IH. cbn [ds_counter ds_flow ds_lines] in IH.
        destruct IH as (Hf & Hl & more & Hmore); [lia | discriminate | |].
        { apply Forall_app. split; [exact Hlines|].
          constructor; [|constructor]. cbn. eapply nth_error_In; eauto. }
        split; [exact Hf|]. split; [exact Hl|].
        exists ([Row payment] ++ more). now rewrite Hmore, <- app_assoc.
    + split; [exact Hflow|]. split; [exact Hlines|].
      exists []. now rewrite app_nil_r.
Qed.

(** The year loop stops by its own condition within the iterations granted. *)
Lemma year_rows_exits schedule loanTerm :
  1 < loanTerm ->
  forall fuel s,
    (2 <= ds_counter s)%Z ->
    (Qfloor loanTerm < ds_counter s + Z.of_nat fuel)%Z ->
    year_rows_cond loanTerm
      (while_fuel (year_rows_cond loanTerm) (year_rows_body schedule loanTerm)
                  fuel s) = false.
Proof.
  intros Hterm. pose proof (year_step_positive loanTerm Hterm) as Hstep.
  induction fuel as [|fuel IH]; intros s Hyear Hfuel; cbn [while_fuel].
  - unfold year_rows_cond. apply andb_false_iff. right. apply Qle_bool_gt.
    apply Qlt_le_trans with (inject_Z (Qfloor loanTerm + 1)); [apply Qlt_floor|].
    rewrite <- Zle_Qle. lia.
  - destruct (year_rows_cond loanTerm s) eqn:Hc; [|exact Hc].
    assert (Hrun : ds_flow s = Running).
    { unfold year_rows_cond in Hc. destruct (ds_flow s); cbn in Hc; congruence. }
    destruct (year_rows_body_cases schedule loanTerm s Hterm Hyear Hrun)
      as [->|(payment & _ & _ & ->)].
    + now rewrite display_loop_stopped.
    + apply IH; cbn [ds_counter]; lia.
Qed.

(** X17. Displaying a schedule never reads outside the array, whatever the
    schedule and the term: the display is produced, it starts with the rows
    of the first 12 entries (all of them when there are fewer), every row it
    shows is an entry of the schedule, and for a term of at most one year
    nothing else is printed. *)
Theorem displaySchedule_safe (schedule : list PaymentScheduleEntry) (loanTerm : Q) :
  exists lines rest,
    displaySchedule schedule loanTerm = Some lines /\
    lines = map Row (firstn 12 schedule) ++ rest /\
    Forall (line_of schedule) lines /\
    (loanTerm <= 1 -> rest = []).
Proof.
  unfold displaySchedule. cbv zeta. rewrite first_rows_result.
  cbn [ds_flow ds_lines].
  assert (Hfirst : Forall (line_of schedule) (map Row (firstn 12 schedule))).
  { apply Forall_forall. intros line Hline. apply in_map_iff in Hline.
    destruct Hline as (payment & <- & Hin). cbn.
    eapply In_firstn. exact Hin. }
  destruct (Qltb 1 loanTerm) eqn:Hterm.
  - apply Qltb_lt in Hterm.
    destruct (year_rows_safe schedule loanTerm Hterm (year_rows_fuel loanTerm)
                {| ds_counter := 2;
                   ds_lines := map Row (firstn 12 schedule) ++ [Ellipsis];
                   ds_flow := Running |})
      as (Hflow & Hlines & more & Hmore); cbn [ds_counter ds_flow ds_lines];
      [lia | discriminate | |].
    { apply Forall_app. split; [exact Hfirst|]. constructor; [exact I|constructor]. }
    cbv zeta in Hflow, Hlines, Hmore. cbn [ds_lines] in Hmore.
    set (years := while_fuel _ _ _ _) in *.
    assert (Hcont :
              exists lines rest,
                (if (0 <? Z.of_nat (length schedule))%Z
                 then match array_get schedule (Z.of_nat (length schedule) - 1) with
                      | Some finalPayment =>
                          Some (ds_lines years ++ [Ellipsis; Row finalPayment])
                      | None => None
                      end
                 else Some (ds_lines years)) = Some lines /\
                lines = map Row (firstn 12 schedule) ++ rest /\
                Forall (line_of schedule) lines /\ (loanTerm <= 1 -> rest = [])).
    { destruct (0 <? Z.of_nat (length schedule))%Z eqn:Hlen.
      - apply Z.ltb_lt in Hlen.
        destruct (array_get_in_range schedule (Z.of_nat (length schedule) - 1))
          as (finalPayment & Hget & Hnth); [lia|].
        rewrite Hget. do 2 eexists. split; [reflexivity|].
        split; [rewrite Hmore, <- !app_assoc; reflexivity|].
        split; [|intros; lra].
        apply Forall_app. split; [exact Hlines|].
        constructor; [exact I|]. constructor; [|constructor].
        cbn. eapply nth_error_In; eauto.
      - do 2 eexists. split; [reflexivity|].
        split; [rewrite Hmore, <- app_assoc; reflexivity|].
        split; [exact Hlines | intros; lra]. }
    destruct (ds_flow years); [exact Hcont | exact Hcont | congruence].
  - apply Qltb_ge in Hterm. exists (map Row (firstn 12 schedule)), [].
    split; [reflexivity|]. split; [now rewrite app_nil_r|]. split; auto.
Qed.

(** X18. For a term of at most one year, the display of the schedule
    generated for that term is the whole schedule, one row per entry. *)
Theorem displaySchedule_short_term_complete
        (loanAmount monthlyPayment annualInterestRatePercent termYears : Q) :
  termYears <= 1 ->
  displaySchedule
    (generateAmortizationSchedule loanAmount monthlyPayment
       annualInterestRatePercent termYears) termYears
  = Some (map Row (generateAmortizationSchedule loanAmount monthlyPayment
                     annualInterestRatePercent termYears)).
Proof.
  intros Hterm. unfold displaySchedule. cbv zeta. rewrite first_rows_result.
  cbn [ds_flow ds_lines].
  rewrite (proj2 (Qltb_ge 1 termYears) Hterm).
  rewrite firstn_all2; [reflexivity|].
  rewrite generateAmortizationSchedule_entries, length_map, length_seq.
  unfold schedule_fuel.
  assert (H : (Qfloor (termYears * 12) <= Qfloor 12)%Z)
    by (apply Qfloor_resp_le; lra).
  change (Qfloor 12) with 12%Z in H. lia.
Qed.

Lemma displaySchedule_short_term_complete_witness :
  displaySchedule (generateAmortizationSchedule 12000 1000 0 1) 1
  = Some (map Row (generateAmortizationSchedule 12000 1000 0 1)) /\
  length (generateAmortizationSchedule 12000 1000 0 1) = 12%nat.
Proof.
  split.
  - apply displaySchedule_short_term_complete. discriminate.
  - now rewrite generateAmortizationSchedule_entries, length_map, length_seq.
Defined.

Lemma year_rows_body_prints schedule loanTerm (Y : Z) s :
  loanTerm == inject_Z Y ->
  Z.of_nat (length schedule) = (12 * Y)%Z ->
  (2 <= ds_counter s <= Y)%Z -> ds_flow s = Running ->
  year_rows_cond loanTerm s = true /\
  exists payment,
    nth_error schedule (Z.to_nat (12 * ds_counter s - 1)) = Some payment /\
    year_rows_body schedule loanTerm s
    = {| ds_counter := ds_counter s + Qceiling (loanTerm / 10);
         ds_lines := ds_lines s ++ [Row payment];
         ds_flow := Running |}.
Proof.
  intros HY Hlen Hyear Hflow.
  assert (Hle : inject_Z (ds_counter s) <= loanTerm)
    by (rewrite HY, <- Zle_Qle; lia).
  split.
  - unfold year_rows_cond. rewrite Hflow. cbn [is_running andb].
    now apply Qle_bool_iff.
  - unfold year_rows_body. cbv zeta.
    rewrite (proj2 (Qltb_ge loanTerm (inject_Z (ds_counter s))) Hle).
    destruct (Z.of_nat (length schedule) <=? ds_counter s * 12 - 1)%Z eqn:E;
      [apply Z.leb_le in E; lia|].
    destruct (array_get_in_range schedule (ds_counter s * 12 - 1))
      as (payment & Hget & Hnth); [lia|].
    exists payment. rewrite Hget, Hflow.
    replace (12 * ds_counter s - 1)%Z with (ds_counter s * 12 - 1)%Z by lia.
    auto.
Qed.

(** When the year loop lands on the last year, the last row it prints is the
    final entry. *)
Lemma year_rows_reach schedule loanTerm (Y : Z) final :
  loanTerm == inject_Z Y -> 1 < loanTerm ->
  Z.of_nat (length schedule) = (12 * Y)%Z ->
  nth_error schedule (Z.to_nat (12 * Y - 1)) = Some final ->
  forall k fuel year lines,
    (2 <= year)%Z ->
    (Y = year + Z.of_nat k * Qceiling (loanTerm / 10))%Z ->
    (k < fuel)%nat ->
    exists prefix,
      ds_lines (while_fuel (year_rows_cond loanTerm)
                           (year_rows_body schedule loanTerm) fuel
                           {| ds_counter := year; ds_lines := lines;
                              ds_flow := Running |})
      = prefix ++ [Row final] /\
      ds_flow (while_fuel (year_rows_cond loanTerm)
                          (year_rows_body schedule loanTerm) fuel
                          {| ds_counter := year; ds_lines := lines;
                             ds_flow := Running |})
      = Running.
Proof.
  intros HY Hterm Hlen Hfinal.
  pose proof (year_step_positive loanTerm Hterm) as Hstep.
  set (d := Qceiling (loanTerm / 10)) in *.
  induction k as [|k IH]; intros fuel year lines Hyear Hreach Hfuel;
    (destruct fuel as [|fuel]; [lia|]); cbn [while_fuel].
  - assert (year = Y) by lia; subst year.
    destruct (year_rows_body_prints schedule loanTerm Y
                {| ds_counter := Y; ds_lines := lines; ds_flow := Running |}
                HY Hlen) as (Hc & payment & Hnth & Hbody);
      cbn [ds_counter ds_flow]; [lia | reflexivity |].
    cbn [ds_counter ds_lines] in Hnth, Hbody. rewrite Hc, Hbody.
    assert (payment = final) by congruence; subst payment.
    rewrite display_loop_stopped.
    + exists lines. split; reflexivity.
    + unfold year_rows_cond. cbn [ds_flow ds_counter is_running andb].
      apply Qle_bool_gt.
      eapply Qle_lt_trans; [apply Qle_lteq; right; exact HY|].
      rewrite <- Zlt_Qlt. fold d. lia.
  - assert (Hnext : (Y = (year + d) + Z.of_nat k * d)%Z).
    { rewrite Nat2Z.inj_succ, Z.mul_succ_l in Hreach. lia. }
    assert (Hkd : (0 <= Z.of_nat k * d)%Z) by (apply Z.mul_nonneg_nonneg; lia).
    destruct (year_rows_body_prints schedule loanTerm Y
                {| ds_counter := year; ds_lines := lines; ds_flow := Running |}
                HY Hlen) as (Hc & payment & Hnth & Hbody);
      cbn [ds_counter ds_flow]; [lia | reflexivity |].
    cbn [ds_counter ds_lines] in Hbody. rewrite Hc, Hbody. fold d.
    apply IH; lia.
Qed.

(** X19. The final payment is printed twice when the year steps land on the
    last year: for a term of [Y >= 2] whole years with [Y - 2] a multiple of
    the step [ceil(Y / 10)] (every term from 2 to 10 years, and 12, 20 or 22
    years, for instance) and a schedule of [12 * Y] entries, the display ends
    with the row of the final entry, ['...'], and the same row again. *)
Theorem displaySchedule_repeats_final_payment
        (schedule : list PaymentScheduleEntry) (loanTerm : Q) (Y : Z) :
  loanTerm == inject_Z Y -> (2 <= Y)%Z ->
  Z.of_nat (length schedule) = (12 * Y)%Z ->
  ((Y - 2) mod Qceiling (loanTerm / 10) = 0)%Z ->
  exists prefix final,
    nth_error schedule (length schedule - 1) = Some final /\
    displaySchedule schedule loanTerm
    = Some (prefix ++ [Row final; Ellipsis; Row final]).
Proof.
  intros HY HY2 Hlen Hmod.
  assert (Hterm : 1 < loanTerm).
  { rewrite HY. change 1 with (inject_Z 1). rewrite <- Zlt_Qlt. lia. }
  pose proof (year_step_positive loanTerm Hterm) as Hstep.
  destruct (array_get_in_range schedule (Z.of_nat (length schedule) - 1))
    as (final & Hget & Hnth); [lia|].
  assert (Hlast : nth_error schedule (Z.to_nat (12 * Y - 1)) = Some final)
    by (rewrite <- Hlen; exact Hnth).
  set (d := Qceiling (loanTerm / 10)) in *.
  assert (Hdiv : (Y - 2 = d * ((Y - 2) / d))%Z).
  { rewrite (Z.div_mod (Y - 2) d) at 1 by lia. rewrite Hmod. lia. }
  assert (Hq : (0 <= (Y - 2) / d)%Z) by (apply Z.div_pos; lia).
  assert (Hqle : ((Y - 2) / d <= Y - 2)%Z).
  { apply Z.div_le_upper_bound; [lia|]. nia. }
  destruct (year_rows_reach schedule loanTerm Y final HY Hterm Hlen Hlast
              (Z.to_nat ((Y - 2) / d)) (year_rows_fuel loanTerm) 2
              (map Row (firstn 12 schedule) ++ [Ellipsis]))
    as (prefix & Hlines & Hflow).
  - lia.
  - fold d. rewrite Z2Nat.id by lia. lia.
  - unfold year_rows_fuel. rewrite (Qfloor_comp _ _ HY), Qfloor_Z. lia.
  - exists prefix, final. split.
    + replace (length schedule - 1)%nat
        with (Z.to_nat (Z.of_nat (length schedule) - 1)) by lia.
      exact Hnth.
    + unfold displaySchedule. cbv zeta. rewrite first_rows_result.
      cbn [ds_flow ds_lines].
      rewrite (proj2 (Qltb_lt 1 loanTerm) Hterm), Hflow, Hlines.
      assert (Hpos : (0 <? Z.of_nat (length schedule))%Z = true)
        by (apply Z.ltb_lt; lia).
      rewrite Hpos, Hget. now rewrite <- app_assoc.
Qed.

(** The schedule of 100000 at 4% over 10 years. *)
Lemma displaySchedule_repeats_final_payment_witness :
  let schedule :=
    generateAmortizationSchedule 100000
      (calculateMonthlyPayment pow_whole 100000 4 10) 4 10 in
  exists prefix final,
    nth_error schedule (length schedule - 1) = Some final /\
    displaySchedule schedule 10
    = Some (prefix ++ [Row final; Ellipsis; Row final]).
Proof.
  cbv zeta.
  apply (displaySchedule_repeats_final_payment _ 10 10);
    [reflexivity | lia | | reflexivity].
  now rewrite generateAmortizationSchedule_entries, length_map, length_seq.
Defined.
